(** * HTTP Basic authentication pipeline and log redaction

    A shallow embedding of
    - [0x01-Basic_authentication/api/v1/auth/basic_auth.py] (class [BasicAuth]),
    - [0x00-personal_data/filtered_logger.py] (function [filter_datum]),
    together with the parts of the Python runtime they call: [str] and
    [bytes] values, the [ascii] and [utf-8] codecs, [base64.b64decode] and
    [re.sub].

    Python values are tagged ([pyval]); a [str] is the list of its code points
    and a [bytes] object the list of its octets, both as [Z].  A Python call
    that may raise returns a [res]; the methods that talk to the user store
    run in [M], which also records the calls they make. *)

From Stdlib Require Import String Ascii ZArith List Bool Lia.
Import ListNotations.
Open Scope Z_scope.

(* ================================================================== *)
(** * Python values, exceptions *)
(* ================================================================== *)

Module Py.

(** A [str]: its code points.  A [bytes]: its octets, each in [0, 256). *)
Definition pystr := list Z.
Definition pybytes := list Z.

(** A string literal of the source, as the code points of its characters. *)
Definition lit (s : string) : pystr :=
  List.map (fun a => Z.of_N (N_of_ascii a)) (list_ascii_of_string s).

Inductive pyval : Type :=
| PNone
| PStr (s : pystr)
| PBytes (b : pybytes)
| PInt (n : Z)
| PBool (b : bool).

(** [v is None] *)
Definition is_none (v : pyval) : bool :=
  match v with PNone => true | _ => false end.

(** [isinstance(v, str)] *)
Definition isinstance_str (v : pyval) : bool :=
  match v with PStr _ => true | _ => false end.

(** The exceptions the modelled calls can raise; all derive from
    [Exception], so [except Exception] catches each of them. *)
Inductive exn : Type :=
| ValueError          (* also tuple unpacking of the wrong length *)
| BinasciiError       (* binascii.Error *)
| UnicodeDecodeError
| UnicodeEncodeError
| StoreError          (* whatever the user store raises *)
| ReError.            (* re.error *)

Inductive res (A : Type) : Type :=
| Ret (a : A)
| Raise (e : exn).
Arguments Ret {A} a.
Arguments Raise {A} e.

Definition rbind {A B} (m : res A) (f : A -> res B) : res B :=
  match m with
  | Ret a => f a
  | Raise e => Raise e
  end.

(** [try: m  except Exception: h] *)
Definition rcatch {A} (m : res A) (h : exn -> res A) : res A :=
  match m with
  | Ret a => Ret a
  | Raise e => h e
  end.

Definition raises {A} (m : res A) : Prop := exists e, m = Raise e.

(** ** [str] operations used by the sources *)

(** [s.startswith(prefix)] *)
Fixpoint startswith (s prefix : pystr) {struct prefix} : bool :=
  match prefix, s with
  | [], _ => true
  | _ :: _, [] => false
  | p :: prefix', c :: s' => (c =? p) && startswith s' prefix'
  end.

(** [s == t] *)
Fixpoint str_eqb (s t : pystr) : bool :=
  match s, t with
  | [], [] => true
  | c :: s', d :: t' => (c =? d) && str_eqb s' t'
  | _, _ => false
  end.

(** [ch in s] for a one-character [ch] *)
Definition contains (ch : Z) (s : pystr) : bool :=
  existsb (Z.eqb ch) s.

(** [s.find(ch)] for a one-character [ch]; [None] stands for [-1]. *)
Fixpoint find (ch : Z) (s : pystr) : option nat :=
  match s with
  | [] => None
  | c :: s' => if c =? ch then Some O
               else option_map S (find ch s')
  end.

(** [s.split(ch, 1)] for a one-character separator: cut at the first
    occurrence, or the whole string as the only item. *)
Definition split_once (ch : Z) (s : pystr) : list pystr :=
  match find ch s with
  | Some i => [firstn i s; skipn (S i) s]
  | None => [s]
  end.

(** [a, b = items]: unpacking into two names. *)
Definition unpack2 {A} (items : list A) : res (A * A) :=
  match items with
  | [a; b] => Ret (a, b)
  | _ => Raise ValueError
  end.

(** [sep.join(items)] *)
Fixpoint join (sep : pystr) (items : list pystr) : pystr :=
  match items with
  | [] => []
  | [x] => x
  | x :: rest => x ++ sep ++ join sep rest
  end.

End Py.
Import Py.

Notation "x <- m ;; k" := (rbind m (fun x => k))
  (at level 61, m at next level, right associativity).
Notation "' pat <- m ;; k" :=
  (rbind m (fun x => match x with pat => k end))
  (at level 61, pat pattern, m at next level, right associativity).

Notation "'py:' s" := (lit s) (at level 9, s at level 0, format "'py:' s").

(* ================================================================== *)
(** * Codecs: [str.encode] and [bytes.decode] *)
(* ================================================================== *)

Module Codec.

(** [s.encode('ascii')], strict. *)
Fixpoint str_encode_ascii (s : pystr) : res pybytes :=
  match s with
  | [] => Ret []
  | ch :: s' =>
      if (0 <=? ch) && (ch <? 128)
      then (bs <- str_encode_ascii s' ;; Ret (ch :: bs))
      else Raise UnicodeEncodeError
  end.

(** A character [ascii] can carry. *)
Definition seven_bit (c : Z) : Prop := 0 <= c < 128.

(** One character of [s.encode('utf-8')], strict: CPython's
    [utf8_encoder] emits one to four octets and refuses surrogates. *)
Definition utf8_encode_char (ch : Z) : res pybytes :=
  if ch <? 0 then Raise UnicodeEncodeError
  else if ch <? 0x80 then Ret [ch]
  else if ch <? 0x800 then
    Ret [Z.lor 0xC0 (Z.shiftr ch 6);
         Z.lor 0x80 (Z.land ch 0x3F)]
  else if (0xD800 <=? ch) && (ch <=? 0xDFFF) then Raise UnicodeEncodeError
  else if ch <? 0x10000 then
    Ret [Z.lor 0xE0 (Z.shiftr ch 12);
         Z.lor 0x80 (Z.land (Z.shiftr ch 6) 0x3F);
         Z.lor 0x80 (Z.land ch 0x3F)]
  else if ch <=? 0x10FFFF then
    Ret [Z.lor 0xF0 (Z.shiftr ch 18);
         Z.lor 0x80 (Z.land (Z.shiftr ch 12) 0x3F);
         Z.lor 0x80 (Z.land (Z.shiftr ch 6) 0x3F);
         Z.lor 0x80 (Z.land ch 0x3F)]
  else Raise UnicodeEncodeError.

(** [s.encode('utf-8')] *)
Fixpoint str_encode_utf8 (s : pystr) : res pybytes :=
  match s with
  | [] => Ret []
  | ch :: s' =>
      b <- utf8_encode_char ch ;;
      bs <- str_encode_utf8 s' ;;
      Ret (b ++ bs)
  end.

(** [IS_CONTINUATION_BYTE]: an octet of the form 10xxxxxx. *)
Definition is_continuation_byte (ch : Z) : bool :=
  (0x80 <=? ch) && (ch <? 0xC0).

(** [b.decode('utf-8')], strict: CPython's [utf8_decode].  Any ill-formed
    sequence (stray continuation octet, overlong form, surrogate, value
    above U+10FFFF, truncated sequence) raises. *)
Fixpoint bytes_decode_utf8 (b : pybytes) : res pystr :=
  match b with
  | [] => Ret []
  | ch :: s1 =>
    if ch <? 0 then Raise UnicodeDecodeError
    else if ch <? 0x80 then
      (r <- bytes_decode_utf8 s1 ;; Ret (ch :: r))
    else if ch <? 0xC2 then Raise UnicodeDecodeError
    else if ch <? 0xE0 then
      match s1 with
      | ch2 :: s2 =>
        if negb (is_continuation_byte ch2) then Raise UnicodeDecodeError
        else
          r <- bytes_decode_utf8 s2 ;;
          Ret ((Z.shiftl ch 6 + ch2 - (Z.shiftl 0xC0 6 + 0x80)) :: r)
      | _ => Raise UnicodeDecodeError
      end
    else if ch <? 0xF0 then
      match s1 with
      | ch2 :: ch3 :: s3 =>
        if negb (is_continuation_byte ch2) then Raise UnicodeDecodeError
        else if (ch =? 0xE0) && (ch2 <? 0xA0) then Raise UnicodeDecodeError
        else if (ch =? 0xED) && (0xA0 <=? ch2) then Raise UnicodeDecodeError
        else if negb (is_continuation_byte ch3) then Raise UnicodeDecodeError
        else
          r <- bytes_decode_utf8 s3 ;;
          Ret ((Z.shiftl ch 12 + Z.shiftl ch2 6 + ch3
                - (Z.shiftl 0xE0 12 + Z.shiftl 0x80 6 + 0x80)) :: r)
      | _ => Raise UnicodeDecodeError
      end
    else if ch <? 0xF5 then
      match s1 with
      | ch2 :: ch3 :: ch4 :: s4 =>
        if negb (is_continuation_byte ch2) then Raise UnicodeDecodeError
        else if (ch =? 0xF0) && (ch2 <? 0x90) then Raise UnicodeDecodeError
        else if (ch =? 0xF4) && (0x90 <=? ch2) then Raise UnicodeDecodeError
        else if negb (is_continuation_byte ch3) then Raise UnicodeDecodeError
        else if negb (is_continuation_byte ch4) then Raise UnicodeDecodeError
        else
          r <- bytes_decode_utf8 s4 ;;
          Ret ((Z.shiftl ch 18 + Z.shiftl ch2 12 + Z.shiftl ch3 6 + ch4
                - (Z.shiftl 0xF0 18 + Z.shiftl 0x80 12
                   + Z.shiftl 0x80 6 + 0x80)) :: r)
      | _ => Raise UnicodeDecodeError
      end
    else Raise UnicodeDecodeError
  end.

(** A code point that [utf-8] can carry: a Unicode scalar value. *)
Definition scalar (ch : Z) : Prop :=
  0 <= ch <= 0x10FFFF /\ ~ (0xD800 <= ch <= 0xDFFF).

End Codec.
Import Codec.

(* ================================================================== *)
(** * [base64]: the standard library's encoder and decoder *)
(* ================================================================== *)

Module Base64.

Definition BASE64_PAD : Z := 61.   (* '=' *)

Definition alphabet : pystr :=
  py:"ABCDEFGHIJKLMNOPQRSTUVWXYZabcdefghijklmnopqrstuvwxyz0123456789+/".

(** [table_b2a_base64[i]] *)
Definition table_b2a_base64 (i : Z) : Z :=
  nth (Z.to_nat i) alphabet 0.

(** [table_a2b_base64[c]]: the value of a digit of the alphabet, and for
    every other octet the out-of-range entry [(unsigned char) -1]. *)
Definition table_a2b_base64 (c : Z) : Z :=
  if (65 <=? c) && (c <=? 90) then c - 65            (* A-Z *)
  else if (97 <=? c) && (c <=? 122) then c - 71      (* a-z *)
  else if (48 <=? c) && (c <=? 57) then c + 4        (* 0-9 *)
  else if c =? 43 then 62                            (* + *)
  else if c =? 47 then 63                            (* / *)
  else 255.

(** A store into an [unsigned char]. *)
Definition u8 (x : Z) : Z := Z.land x 255.

(** The loop of [binascii.a2b_base64] with [strict_mode] off, the mode
    [base64.b64decode] selects through its default [validate=False].
    [quad_pos] counts the digits of the current group of four,
    [leftchar] holds the bits not yet written, [pads] the '=' seen since
    the last digit.  Octets outside the alphabet are skipped; a pad that
    completes a group stops the decoding ([goto done]); data ending inside
    a group raises [binascii.Error]. *)
Fixpoint a2b_loop (ascii_data : pybytes) (quad_pos leftchar pads : Z)
         (bin_data : pybytes) : res pybytes :=
  match ascii_data with
  | [] => if quad_pos =? 0 then Ret bin_data else Raise BinasciiError
  | this_ch :: rest =>
    if this_ch =? BASE64_PAD then
      if 2 <=? quad_pos then
        let pads := pads + 1 in
        if 4 <=? quad_pos + pads then Ret bin_data
        else a2b_loop rest quad_pos leftchar pads bin_data
      else a2b_loop rest quad_pos leftchar pads bin_data
    else
      let this_ch := table_a2b_base64 this_ch in
      if 64 <=? this_ch then a2b_loop rest quad_pos leftchar pads bin_data
      else if quad_pos =? 0 then
        a2b_loop rest 1 this_ch 0 bin_data
      else if quad_pos =? 1 then
        a2b_loop rest 2 (Z.land this_ch 0x0f) 0
          (bin_data ++ [u8 (Z.lor (Z.shiftl leftchar 2) (Z.shiftr this_ch 4))])
      else if quad_pos =? 2 then
        a2b_loop rest 3 (Z.land this_ch 0x03) 0
          (bin_data ++ [u8 (Z.lor (Z.shiftl leftchar 4) (Z.shiftr this_ch 2))])
      else
        a2b_loop rest 0 0 0
          (bin_data ++ [u8 (Z.lor (Z.shiftl leftchar 6) this_ch)])
  end.

Definition a2b_base64 (data : pybytes) : res pybytes :=
  a2b_loop data 0 0 0 [].

(** [base64._bytes_from_decode_data] on a [str]. *)
Definition bytes_from_decode_data (s : pystr) : res pybytes :=
  rcatch (str_encode_ascii s) (fun _ => Raise ValueError).

(** [base64.b64decode(s)] on a [str], default arguments. *)
Definition b64decode (s : pystr) : res pybytes :=
  data <- bytes_from_decode_data s ;;
  a2b_base64 data.

(** [base64.b64encode(b)], read as text: RFC 4648 with padding, three
    octets to four digits. *)
Fixpoint b64encode (b : pybytes) : pystr :=
  match b with
  | [] => []
  | [x] =>
      [table_b2a_base64 (Z.shiftr x 2);
       table_b2a_base64 (Z.shiftl (Z.land x 0x03) 4);
       BASE64_PAD; BASE64_PAD]
  | [x; y] =>
      [table_b2a_base64 (Z.shiftr x 2);
       table_b2a_base64 (Z.lor (Z.shiftl (Z.land x 0x03) 4) (Z.shiftr y 4));
       table_b2a_base64 (Z.shiftl (Z.land y 0x0f) 2);
       BASE64_PAD]
  | x :: y :: z :: rest =>
      table_b2a_base64 (Z.shiftr x 2)
      :: table_b2a_base64 (Z.lor (Z.shiftl (Z.land x 0x03) 4) (Z.shiftr y 4))
      :: table_b2a_base64 (Z.lor (Z.shiftl (Z.land y 0x0f) 2) (Z.shiftr z 6))
      :: table_b2a_base64 (Z.land z 0x3f)
      :: b64encode rest
  end.

(** An octet. *)
Definition octet (x : Z) : Prop := 0 <= x < 256.

(** A text that is the base64 encoding of some octets. *)
Definition valid_base64 (s : pystr) : Prop :=
  exists b, Forall octet b /\ s = b64encode b.

(** A digit of the base64 alphabet. *)
Definition is_digit (c : Z) : bool := table_a2b_base64 c <? 64.

(** A character the decoder looks at: a digit of the alphabet or the pad. *)
Definition significant (c : Z) : bool := is_digit c || (c =? BASE64_PAD).

(** ** Insufficient padding, in plain terms

    Written from the description of what the decoder rejects, not from
    its code.  The token is read left to right and every character that
    is neither a digit of the alphabet nor '=' is skipped.  [group] is
    the number of digits read of the current group of four, [pads] the
    number of '=' read since the last digit.  One '=' closes a group of
    three digits, two close a group of two, and nothing after a closing
    '=' is read; a group of one digit cannot be closed.  The token is
    left unclosed when it ends inside a group. *)
Fixpoint unclosed (group pads : Z) (token : pystr) : bool :=
  match token with
  | [] => negb (group =? 0)
  | c :: rest =>
      if c =? BASE64_PAD then
        if (2 <=? group) && (4 <=? group + (pads + 1)) then false
        else unclosed group (pads + 1) rest
      else if is_digit c then unclosed ((group + 1) mod 4) 0 rest
      else unclosed group pads rest
  end.

Definition insufficient_padding (token : pystr) : bool :=
  unclosed 0 0 token.

(** The number of '=' in a text. *)
Definition pad_count (s : pystr) : Z :=
  Z.of_nat (length (filter (Z.eqb BASE64_PAD) s)).

(** The number of digits of the alphabet in a text. *)
Definition digit_count (s : pystr) : Z :=
  Z.of_nat (length (filter is_digit s)).

End Base64.
Import Base64.


(* ================================================================== *)
(** * [api/v1/auth/basic_auth.py]: class [BasicAuth] *)
(* ================================================================== *)

Module BasicAuth.

(** ** The three stages that only look at their argument *)

(** [BasicAuth.extract_base64_authorization_header] *)
Definition extract_base64_authorization_header
           (authorization_header : pyval) : res pyval :=
  if is_none authorization_header then Ret PNone
  else
    match authorization_header with
    | PStr s =>
        if negb (startswith s py:"Basic ") then Ret PNone
        else Ret (PStr (skipn 6 s))
    | _ => Ret PNone       (* not isinstance(authorization_header, str) *)
    end.

(** [BasicAuth.decode_base64_authorization_header] *)
Definition decode_base64_authorization_header
           (base64_authorization_header : pyval) : res pyval :=
  if is_none base64_authorization_header then Ret PNone
  else
    match base64_authorization_header with
    | PStr s =>
        rcatch
          (decoded_bytes <- b64decode s ;;
           decoded_str <- bytes_decode_utf8 decoded_bytes ;;
           Ret (PStr decoded_str))
          (fun _ => Ret PNone)
    | _ => Ret PNone
    end.

(** [BasicAuth.extract_user_credentials] *)
Definition extract_user_credentials
           (decoded_base64_authorization_header : pyval)
  : res (pyval * pyval) :=
  if is_none decoded_base64_authorization_header then Ret (PNone, PNone)
  else
    match decoded_base64_authorization_header with
    | PStr s =>
        if negb (contains 58 s) then Ret (PNone, PNone)
        else
          '(user, password) <- unpack2 (split_once 58 s) ;;
          Ret (PStr user, PStr password)
    | _ => Ret (PNone, PNone)
    end.

(** The three parsing stages, one after the other. *)
Definition parse_header (header : pystr) : res (pyval * pyval) :=
  token <- extract_base64_authorization_header (PStr header) ;;
  decoded <- decode_base64_authorization_header token ;;
  extract_user_credentials decoded.

(** ** The stages that reach the request and the user store *)

Section Scheme.

(** The collaborators of spec section 6, none of which is among the
    sources: a request that yields a named header, and a user store
    with a search (which may raise) and a password predicate. *)
Context {Request User : Type}.
Variable getHeader : Request -> pystr -> option pystr.
Variable search : pystr -> res (list User).
Variable is_valid_password : User -> pystr -> bool.

(** The calls a run makes, in order. *)
Inductive event : Type :=
| AuthorizationHeader                       (* self.authorization_header *)
| ExtractBase64                             (* stage 1 *)
| DecodeBase64                              (* stage 2 *)
| ExtractCredentials                        (* stage 3 *)
| UserFromCredentials                       (* stage 4 *)
| Search (email : pystr)                    (* User.search *)
| IsValidPassword (user : User) (pwd : pystr).

(** A computation: the calls made so far and the outcome. *)
Definition M (A : Type) : Type := (list event * res A)%type.

Definition ret {A} (a : A) : M A := ([], Ret a).

Definition bind {A B} (m : M A) (f : A -> M B) : M B :=
  match m with
  | (t, Ret a) => let '(t', r) := f a in (t ++ t', r)
  | (t, Raise e) => (t, Raise e)
  end.

(** A call of a method that makes no further calls: its event, then
    its outcome. *)
Definition call {A} (ev : event) (r : res A) : M A := ([ev], r).

(** A call of a method that makes calls of its own. *)
Definition invoke {A} (ev : event) (m : M A) : M A :=
  (ev :: fst m, snd m).

(** [try: x = m  except Exception: h], then [body x]. *)
Definition try_except {A B} (m : M A) (h : exn -> M B) (body : A -> M B)
  : M B :=
  match m with
  | (t, Ret a) => let '(t', r) := body a in (t ++ t', r)
  | (t, Raise e) => let '(t', r) := h e in (t ++ t', r)
  end.

Definition trace {A} (m : M A) : list event := fst m.
Definition outcome {A} (m : M A) : res A := snd m.

(** The password checks made on the candidates [l]. *)
Definition checks (l : list User) (pwd : pystr) : list event :=
  map (fun u => IsValidPassword u pwd) l.

Local Notation "x <~ m ;; k" := (bind m (fun x => k))
  (at level 61, m at next level, right associativity).

(** Modelled from the spec: [Auth.authorization_header], inherited from
    [api/v1/auth/auth.py], which is not among the sources.  Spec 4.1:
    it returns the raw value of the request's Authorization header, or
    none if absent, and never raises; the request offers exactly
    [getHeader] (spec 6). *)
Definition authorization_header (request : Request) : pyval :=
  match getHeader request py:"Authorization" with
  | Some value => PStr value
  | None => PNone
  end.

(** The loop [for user in users: if user.is_valid_password(user_pwd):
    return user], followed by [return None]. *)
Fixpoint first_valid (users : list User) (user_pwd : pystr)
  : M (option User) :=
  match users with
  | [] => ret None
  | user :: rest =>
      ok <~ call (IsValidPassword user user_pwd)
                 (Ret (is_valid_password user user_pwd)) ;;
      if ok : bool then ret (Some user)
      else first_valid rest user_pwd
  end.

(** [BasicAuth.user_object_from_credentials] *)
Definition user_object_from_credentials (user_email user_pwd : pyval)
  : M (option User) :=
  if is_none user_email || is_none user_pwd then ret None
  else
    match user_email, user_pwd with
    | PStr email, PStr pwd =>
        try_except (call (Search email) (search email))
                   (fun _ => ret None)
                   (fun users => first_valid users pwd)
    | _, _ => ret None    (* one of them is not a str *)
    end.

(** [BasicAuth.current_user] *)
Definition current_user (request : option Request) : M (option User) :=
  match request with
  | None => ret None
  | Some request =>
      base64_authorization_header <~
        call AuthorizationHeader (Ret (authorization_header request)) ;;
      if is_none base64_authorization_header then ret None
      else
        encoded_base64 <~
          call ExtractBase64
            (extract_base64_authorization_header
               base64_authorization_header) ;;
        if is_none encoded_base64 then ret None
        else
          decoded_base64 <~
            call DecodeBase64
              (decode_base64_authorization_header encoded_base64) ;;
          if is_none decoded_base64 then ret None
          else
            creds <~
              call ExtractCredentials
                (extract_user_credentials decoded_base64) ;;
            let '(user_email, user_pwd) := creds in
            if is_none user_email || is_none user_pwd then ret None
            else
              user <~
                invoke UserFromCredentials
                  (user_object_from_credentials user_email user_pwd) ;;
              ret user
  end.

End Scheme.

Arguments event : clear implicits.

End BasicAuth.

(* ================================================================== *)
(** * [re]: the fragment of the pattern language [filter_datum] can reach *)
(* ================================================================== *)

Module Re.

(** Code points of the characters the pattern syntax names. *)
Definition ch (a : ascii) : Z := Z.of_N (N_of_ascii a).

(** [SPECIAL_CHARS] of the pattern parser. *)
Definition SPECIAL_CHARS : pystr := py:".\[{()*+?^$|".

(** A character that stands for itself in a pattern. *)
Definition plain (c : Z) : bool := negb (contains c SPECIAL_CHARS).

(** ASCII letters and digits: after a backslash they name classes,
    back-references and control characters. *)
Definition is_alnum (c : Z) : bool :=
  ((48 <=? c) && (c <=? 57)) || ((65 <=? c) && (c <=? 90))
  || ((97 <=? c) && (c <=? 122)).

(** Parsed patterns.  Repetitions are the greedy ones. *)
Inductive regex : Type :=
| Eps
| Lit (c : Z)                              (* LITERAL *)
| Any                                      (* ANY: all but newline *)
| InSet (negate : bool) (items : list Z)   (* IN *)
| Cat (r1 r2 : regex)
| Alt (r1 r2 : regex)                      (* BRANCH *)
| Star (r : regex)                         (* MAX_REPEAT 0 inf *)
| Plus (r : regex)                         (* MAX_REPEAT 1 inf *)
| Opt (r : regex)                          (* MAX_REPEAT 0 1 *)
| Group (n : nat) (r : regex).             (* SUBPATTERN n *)

Definition is_repeat (r : regex) : bool :=
  match r with Star _ | Plus _ | Opt _ => true | _ => false end.

(** Can the pattern match the empty string? *)
Fixpoint nullable (r : regex) : bool :=
  match r with
  | Eps => true
  | Lit _ | Any | InSet _ _ => false
  | Cat r1 r2 => nullable r1 && nullable r2
  | Alt r1 r2 => nullable r1 || nullable r2
  | Star _ | Opt _ => true
  | Plus r' => nullable r'
  | Group _ r' => nullable r'
  end.

(** What the parser can say about a pattern: the parsed pattern, a
    syntax error ([re.error]), or a construct this model leaves out
    (lazy and possessive repeats, counted repeats, anchors, extension
    groups, character ranges, letter and digit escapes, repeats of a
    pattern that can match the empty string). *)
Inductive parsed (A : Type) : Type :=
| Parsed (a : A)
| BadPattern
| Unsupported.
Arguments Parsed {A} a.
Arguments BadPattern {A}.
Arguments Unsupported {A}.

Definition seq_of (items : list regex) : regex :=
  fold_right Cat Eps items.

(** The members of a character set, after the opening bracket and the
    optional caret; returns them with what follows the closing bracket.
    A closing bracket that comes first is a member. *)
Fixpoint parse_set (s : pystr) (items : list Z) : parsed (list Z * pystr) :=
  match s with
  | [] => BadPattern                          (* unterminated set *)
  | c :: s' =>
    if (c =? ch "]") && negb (Nat.eqb (length items) 0) then
      Parsed (items, s')
    else if c =? ch "\" then
      match s' with
      | [] => BadPattern                      (* bad escape *)
      | e :: s'' =>
          if is_alnum e then Unsupported
          else
            match s'' with
            | d :: _ => if d =? ch "-" then Unsupported
                        else parse_set s'' (items ++ [e])
            | [] => BadPattern
            end
      end
    else
      match s' with
      | d :: s'' =>
          if d =? ch "-" then
            match s'' with
            | [] => BadPattern
            | e :: s''' =>
                if e =? ch "]" then Parsed (items ++ [c; ch "-"], s''')
                else Unsupported              (* a range *)
            end
          else parse_set s' (items ++ [c])
      | [] => BadPattern
      end
  end.

(** [_parse]: the items of one alternative, up to '|', ')' or the end;
    [acc] holds the items read so far, last first; [g] counts the
    groups opened so far.  [_parse_sub]: the alternatives. *)
Fixpoint parse_items (fuel : nat) (acc : list regex) (s : pystr) (g : nat)
  : parsed (list regex * pystr * nat) :=
  match fuel with
  | O => Unsupported
  | S fuel' =>
    match s with
    | [] => Parsed (acc, [], g)
    | c :: s' =>
      if (c =? ch "|") || (c =? ch ")") then Parsed (acc, s, g)
      else if c =? ch "\" then
        match s' with
        | [] => BadPattern                    (* bad escape *)
        | e :: s'' =>
            if is_alnum e then Unsupported
            else parse_items fuel' (Lit e :: acc) s'' g
        end
      else if plain c then parse_items fuel' (Lit c :: acc) s' g
      else if c =? ch "[" then
        let '(negate, s1) :=
          match s' with
          | d :: s'' => if d =? ch "^" then (true, s'') else (false, s')
          | [] => (false, s')
          end in
        match parse_set s1 [] with
        | Parsed (items, rest) =>
            parse_items fuel' (InSet negate items :: acc) rest g
        | BadPattern => BadPattern
        | Unsupported => Unsupported
        end
      else if (c =? ch "*") || (c =? ch "+") || (c =? ch "?") then
        match acc with
        | [] => BadPattern                    (* nothing to repeat *)
        | item :: acc' =>
          if is_repeat item then BadPattern   (* multiple repeat *)
          else
            let lazy :=
              match s' with
              | d :: _ => (d =? ch "?") || (d =? ch "+")
              | [] => false
              end in
            if lazy then Unsupported
            else if nullable item then Unsupported
            else
              let item' :=
                if c =? ch "*" then Star item
                else if c =? ch "+" then Plus item
                else Opt item in
              parse_items fuel' (item' :: acc') s' g
        end
      else if c =? ch "." then parse_items fuel' (Any :: acc) s' g
      else if c =? ch "(" then
        match s' with
        | d :: _ =>
          if d =? ch "?" then Unsupported
          else
            let n := S g in
            match parse_alt fuel' s' n with
            | Parsed (r, rest, g') =>
                match rest with
                | d' :: rest' =>
                    if d' =? ch ")" then
                      parse_items fuel' (Group n r :: acc) rest' g'
                    else BadPattern
                | [] => BadPattern            (* missing ) *)
                end
            | BadPattern => BadPattern
            | Unsupported => Unsupported
            end
        | [] => BadPattern                    (* missing ) *)
        end
      else Unsupported                        (* '{', '^', '$' *)
    end
  end
with parse_alt (fuel : nat) (s : pystr) (g : nat)
  : parsed (regex * pystr * nat) :=
  match fuel with
  | O => Unsupported
  | S fuel' =>
    match parse_items fuel' [] s g with
    | Parsed (items, rest, g') =>
        let r := seq_of (rev items) in
        match rest with
        | d :: rest' =>
            if d =? ch "|" then
              match parse_alt fuel' rest' g' with
              | Parsed (r2, rest2, g2) => Parsed (Alt r r2, rest2, g2)
              | BadPattern => BadPattern
              | Unsupported => Unsupported
              end
            else Parsed (r, rest, g')
        | [] => Parsed (r, rest, g')
        end
    | BadPattern => BadPattern
    | Unsupported => Unsupported
    end
  end.

(** [re.compile(pattern)]: a whole pattern; a ')' left over is
    unbalanced. *)
Definition parse (pattern : pystr) : parsed regex :=
  match parse_alt (2 * length pattern + 2) pattern 0 with
  | Parsed (r, [], _) => Parsed r
  | Parsed (_, _ :: _, _) => BadPattern
  | BadPattern => BadPattern
  | Unsupported => Unsupported
  end.

(** ** Matching: backtracking, leftmost alternative first, greedy *)

(** The groups that took part in a match, latest first. *)
Definition caps := list (nat * pystr).

Definition cont := pystr -> caps -> option (caps * pystr).

(** Up to [n] further rounds of [step], as many as possible first; a
    round has to consume input. *)
Fixpoint repeat_max (step : pystr -> caps -> cont -> option (caps * pystr))
         (n : nat) (s : pystr) (c : caps) (k : cont)
  : option (caps * pystr) :=
  match n with
  | O => k s c
  | S n' =>
      match step s c (fun s' c' =>
               if (length s' <? length s)%nat
               then repeat_max step n' s' c' k
               else None) with
      | Some m => Some m
      | None => k s c
      end
  end.

(** [mtch r s c k]: match [r] at the head of [s], then continue with
    [k] on what is left; [None] is a failure, which makes the caller
    try its next choice. *)
Fixpoint mtch (r : regex) (s : pystr) (c : caps) (k : cont)
  : option (caps * pystr) :=
  match r with
  | Eps => k s c
  | Lit a =>
      match s with
      | x :: s' => if x =? a then k s' c else None
      | [] => None
      end
  | Any =>
      match s with
      | x :: s' => if x =? 10 then None else k s' c
      | [] => None
      end
  | InSet negate items =>
      match s with
      | x :: s' => if xorb negate (contains x items) then k s' c else None
      | [] => None
      end
  | Cat r1 r2 => mtch r1 s c (fun s' c' => mtch r2 s' c' k)
  | Alt r1 r2 =>
      match mtch r1 s c k with
      | Some m => Some m
      | None => mtch r2 s c k
      end
  | Star r' => repeat_max (mtch r') (length s) s c k
  | Plus r' =>
      mtch r' s c (fun s' c' =>
        if (length s' <? length s)%nat
        then repeat_max (mtch r') (length s') s' c' k
        else None)
  | Opt r' =>
      match mtch r' s c k with
      | Some m => Some m
      | None => k s c
      end
  | Group n r' =>
      mtch r' s c (fun s' c' =>
        k s' ((n, firstn (length s - length s') s) :: c'))
  end.

(** A match that starts at the head of [s]; with [must_advance] an
    empty one is refused. *)
Definition match_here (r : regex) (s : pystr) (must_advance : bool)
  : option (caps * pystr) :=
  mtch r s [] (fun s' c =>
    if must_advance && (length s' =? length s)%nat then None
    else Some (c, s')).

(** The leftmost match in [s]: the text before it, its groups, and the
    text after it.  [must_advance] binds the first position only. *)
Fixpoint search (r : regex) (s : pystr) (must_advance : bool)
  : option (pystr * caps * pystr) :=
  match match_here r s must_advance with
  | Some (c, rest) => Some ([], c, rest)
  | None =>
      match s with
      | [] => None
      | x :: s' =>
          match search r s' false with
          | Some (skipped, c, rest) => Some (x :: skipped, c, rest)
          | None => None
          end
      end
  end.

(** [m.group(n)] inside an f-string: a group that took no part in the
    match formats as the text None. *)
Definition group (m : caps) (n : nat) : pystr :=
  match List.find (fun e => Nat.eqb (fst e) n) m with
  | Some (_, text) => text
  | None => py:"None"
  end.

(** The loop of [pattern.sub(repl, string)] for a callable [repl]:
    copy up to the next match, put the replacement, go on after the
    match; after an empty match the next one must advance. *)
Fixpoint sub_loop (fuel : nat) (r : regex) (repl : caps -> pystr)
         (s : pystr) (must_advance : bool) : pystr :=
  match fuel with
  | O => s
  | S fuel' =>
      match search r s must_advance with
      | None => s
      | Some (skipped, c, rest) =>
          skipped ++ repl c
          ++ sub_loop fuel' r repl rest
               (length skipped + length rest =? length s)%nat
      end
  end.

(** What the model says of a call: its outcome, or that the pattern
    leaves the fragment. *)
Inductive answer (A : Type) : Type :=
| Known (r : res A)
| OutOfFragment.
Arguments Known {A} r.
Arguments OutOfFragment {A}.

(** [re.sub(pattern, repl, string)] for a callable [repl]. *)
Definition sub (pattern : pystr) (repl : caps -> pystr) (string : pystr)
  : answer pystr :=
  match parse pattern with
  | Parsed r =>
      Known (Ret (sub_loop (2 * length string + 2) r repl string false))
  | BadPattern => Known (Raise ReError)
  | Unsupported => OutOfFragment
  end.

End Re.

(* ================================================================== *)
(** * [filtered_logger.py] *)
(* ================================================================== *)

Module FilteredLogger.
Import Re.

(** The pattern
    [rf'({"|".join(fields)})=[^{separator}]+'] *)
Definition datum_pattern (fields : list pystr) (separator : pystr) : pystr :=
  py:"(" ++ join py:"|" fields ++ py:")=[^" ++ separator ++ py:"]+".

(** [filter_datum] *)
Definition filter_datum (fields : list pystr)
           (redaction message separator : pystr) : answer pystr :=
  sub (datum_pattern fields separator)
      (fun m => group m 1 ++ py:"=" ++ redaction)
      message.

(** Field names in which every character stands for itself in a
    pattern. *)
Definition all_plain (fields : list pystr) : bool :=
  forallb (forallb plain) fields.

(** ** The redaction the function is meant to perform, in plain terms

    Written from the description of the function, not from its code:
    field names are plain text, the value of a field is the non-empty
    run of characters up to the separator. *)

(** The characters at the head of [s] up to (excluding) the separator. *)
Fixpoint run (sep : Z) (s : pystr) : pystr :=
  match s with
  | [] => []
  | x :: s' => if x =? sep then [] else x :: run sep s'
  end.

(** [field], then '=', then a non-empty run start [s]: what follows
    the run. *)
Definition occurrence (sep : Z) (field s : pystr) : option pystr :=
  if startswith s (field ++ py:"=") then
    let after := skipn (length field + 1) s in
    match run sep after with
    | [] => None
    | (_ :: _) as value => Some (skipn (length value) after)
    end
  else None.

(** The first listed field with an occurrence at the head of [s]. *)
Fixpoint first_occurrence (sep : Z) (fields : list pystr) (s : pystr)
  : option (pystr * pystr) :=
  match fields with
  | [] => None
  | field :: others =>
      match occurrence sep field s with
      | Some rest => Some (field, rest)
      | None => first_occurrence sep others s
      end
  end.

(** Left to right: an occurrence is replaced by the field name, '=' and
    the redaction, and reading resumes after its value; any other
    character is kept. *)
Fixpoint redact_loop (n : nat) (fields : list pystr) (redaction : pystr)
         (sep : Z) (s : pystr) : pystr :=
  match n with
  | O => s
  | S n' =>
      match first_occurrence sep fields s with
      | Some (field, rest) =>
          field ++ py:"=" ++ redaction
          ++ redact_loop n' fields redaction sep rest
      | None =>
          match s with
          | [] => []
          | x :: s' => x :: redact_loop n' fields redaction sep s'
          end
      end
  end.

Definition redact (fields : list pystr) (redaction message : pystr)
           (sep : Z) : pystr :=
  redact_loop (S (length message)) fields redaction sep message.

(** ** Conditions on field names and messages

    Used to state when the pattern behaves record by record. *)

(** No field name has the character [c]. *)
Definition none_has (c : Z) (fields : list pystr) : bool :=
  forallb (fun f => negb (contains c f)) fields.

(** [w in s]: the text [w] occurs in [s]. *)
Fixpoint occurs (w s : pystr) : bool :=
  startswith s w
  || match s with
     | [] => false
     | _ :: t => occurs w t
     end.

(** Some listed field name, followed by '=', occurs in the message. *)
Definition mentioned (fields : list pystr) (message : pystr) : bool :=
  existsb (fun f => occurs (f ++ py:"=") message) fields.

End FilteredLogger.

(* ================================================================== *)
(** * The pattern of [filter_datum] for plain field names *)
(* ================================================================== *)

Module DatumPattern.
Import Re FilteredLogger.

(** The pattern of a field name made of plain characters. *)
Definition lits (f : pystr) : regex := seq_of (map Lit f).

(** The alternatives the group of [filter_datum]'s pattern holds. *)
Fixpoint alts (fields : list pystr) : regex :=
  match fields with
  | [] => Eps
  | [f] => lits f
  | f :: others => Alt (lits f) (alts others)
  end.

(** The pattern of [filter_datum], parsed. *)
Definition datum_regex (fields : list pystr) (sep : Z) : regex :=
  Cat (Group 1 (alts fields))
      (Cat (Lit 61) (Cat (Plus (InSet true [sep])) Eps)).

(** The first listed name that starts [s] and lets [k] go through. *)
Fixpoint try_fields (fields : list pystr) (s : pystr) (c : caps) (k : cont)
  : option (caps * pystr) :=
  match fields with
  | [] => None
  | f :: others =>
      match (if startswith s f then k (skipn (length f) s) c else None) with
      | Some m => Some m
      | None => try_fields others s c k
      end
  end.

(** The last continuation of a match that starts at [s]. *)
Definition accept (s : pystr) (must_advance : bool) : cont :=
  fun s' c =>
    if must_advance && (length s' =? length s)%nat then None
    else Some (c, s').

(** What has to follow a field name: '=' and a non-empty run; gives
    what follows the run. *)
Definition value_here (sep : Z) (s : pystr) : option pystr :=
  match s with
  | x :: after =>
      if x =? 61 then
        match run sep after with
        | [] => None
        | (_ :: _) as value => Some (skipn (length value) after)
        end
      else None
  | [] => None
  end.

End DatumPattern.

(* ================================================================== *)
(** * A small deployment: the end-to-end example of spec section 8 *)
(* ================================================================== *)

Module Fixture.

(** A request: its headers, by name. *)
Definition request := list (pystr * pystr).

Definition getHeader (r : request) (name : pystr) : option pystr :=
  option_map snd (List.find (fun kv => str_eqb (fst kv) name) r).

Record user := { email : pystr; password : pystr }.

Definition bob : user :=
  {| email := py:"bob@x.com"; password := py:"secret" |}.

(** Two records under one address; only the second one has the
    password "secret". *)
Definition old_bob : user :=
  {| email := py:"bob@x.com"; password := py:"retired" |}.

Definition users : list user := [old_bob; bob].

Definition search (e : pystr) : res (list user) :=
  Ret (filter (fun u => str_eqb (email u) e) users).

(** A store that is down. *)
Definition search_down (e : pystr) : res (list user) := Raise StoreError.

Definition is_valid_password (u : user) (pwd : pystr) : bool :=
  str_eqb (password u) pwd.

Definition basic (credentials : pystr) : request :=
  [(py:"Host", py:"x.com");
   (py:"Authorization", py:"Basic " ++ b64encode credentials)].

End Fixture.

(* ================================================================== *)
(** * Facts about [str] operations *)
(* ================================================================== *)

Module PyFacts.

Lemma ret_inj {A} (a b : A) : Ret a = Ret b -> a = b.
Proof. now intros [= ->]. Qed.

Lemma startswith_app (p t : pystr) : startswith (p ++ t) p = true.
Proof.
  induction p as [|c p IH]; simpl; [reflexivity|].
  now rewrite Z.eqb_refl, IH.
Qed.

Lemma startswith_inv (p s : pystr) :
  startswith s p = true -> s = p ++ skipn (length p) s.
Proof.
  revert s; induction p as [|c p IH]; intros s H; simpl in *.
  - reflexivity.
  - destruct s as [|d s]; [discriminate|].
    apply andb_true_iff in H as [Hc Hs].
    apply Z.eqb_eq in Hc; subst d.
    f_equal. now apply IH.
Qed.

Lemma startswith_false (p s : pystr) :
  startswith s p = false -> forall t, s <> p ++ t.
Proof.
  intros H t ->. now rewrite startswith_app in H.
Qed.

Lemma skipn_length_app (p t : pystr) : skipn (length p) (p ++ t) = t.
Proof. induction p; simpl; auto. Qed.

Lemma firstn_length_app (p t : pystr) : firstn (length p) (p ++ t) = p.
Proof. induction p; simpl; [now destruct t | now f_equal]. Qed.

Lemma contains_false_iff (ch : Z) (s : pystr) :
  contains ch s = false <-> ~ In ch s.
Proof.
  unfold contains. split.
  - intros H Hin.
    assert (existsb (Z.eqb ch) s = true) as E
        by (apply existsb_exists; exists ch; split; [exact Hin | apply Z.eqb_refl]).
    congruence.
  - intros H. destruct (existsb (Z.eqb ch) s) eqn:E; [|reflexivity].
    apply existsb_exists in E as (x & Hx & Hxe).
    apply Z.eqb_eq in Hxe; subst x. contradiction.
Qed.

Lemma contains_true_iff (ch : Z) (s : pystr) :
  contains ch s = true <-> In ch s.
Proof.
  unfold contains. rewrite existsb_exists. split.
  - intros (x & Hx & Hxe). apply Z.eqb_eq in Hxe. now subst.
  - intros H. exists ch. split; [exact H | apply Z.eqb_refl].
Qed.

Lemma contains_app (ch : Z) (a b : pystr) :
  contains ch (a ++ b) = contains ch a || contains ch b.
Proof. unfold contains. apply existsb_app. Qed.

(** [find] stops at the first occurrence. *)
Lemma find_first (ch : Z) (a b : pystr) :
  contains ch a = false -> find ch (a ++ ch :: b) = Some (length a).
Proof.
  induction a as [|x a IH]; simpl; intros H.
  - now rewrite Z.eqb_refl.
  - apply orb_false_iff in H as [Hx Ha].
    rewrite Z.eqb_sym, Hx. now rewrite IH.
Qed.

Lemma find_none (ch : Z) (s : pystr) :
  contains ch s = false -> find ch s = None.
Proof.
  induction s as [|x s IH]; simpl; intros H; [reflexivity|].
  apply orb_false_iff in H as [Hx Hs].
  rewrite Z.eqb_sym, Hx. now rewrite IH.
Qed.

(** A string with a separator splits at its first one. *)
Lemma contains_split (ch : Z) (s : pystr) :
  contains ch s = true ->
  exists a b, s = a ++ ch :: b /\ contains ch a = false.
Proof.
  induction s as [|x s IH]; simpl; intros H; [discriminate|].
  destruct (ch =? x) eqn:E.
  - apply Z.eqb_eq in E; subst x. now exists [], s.
  - simpl in H. destruct (IH H) as (a & b & -> & Ha).
    exists (x :: a), b. split; [reflexivity|]. simpl. now rewrite E.
Qed.

Lemma split_once_first (ch : Z) (a b : pystr) :
  contains ch a = false -> split_once ch (a ++ ch :: b) = [a; b].
Proof.
  intros H. unfold split_once. rewrite (find_first _ _ _ H).
  rewrite firstn_length_app.
  change (S (length a)) with (length a + 1)%nat || idtac.
  replace (S (length a)) with (length (a ++ [ch])) by (rewrite length_app; simpl; lia).
  replace (a ++ ch :: b) with ((a ++ [ch]) ++ b) by (now rewrite <- app_assoc).
  now rewrite skipn_length_app.
Qed.

End PyFacts.
Import PyFacts.

(* ================================================================== *)
(** * Shifts, masks and [lor] on small values *)
(* ================================================================== *)

Module Bits.

(** Below [2 ^ n] the bits of [b] do not meet those of a multiple of
    [2 ^ n], and [lor] is the sum. *)
Lemma lor_shiftl_add (a b n : Z) :
  0 <= n -> 0 <= b < 2 ^ n -> Z.lor (Z.shiftl a n) b = a * 2 ^ n + b.
Proof.
  intros Hn Hb. rewrite Z.shiftl_mul_pow2 by assumption.
  rewrite <- Z.add_lor_land.
  replace (Z.land (a * 2 ^ n) b) with 0; [lia|].
  symmetry. apply Z.bits_inj'. intros k Hk.
  rewrite Z.land_spec, Z.bits_0.
  destruct (Z.lt_ge_cases k n) as [Hlt|Hge].
  - now rewrite Z.mul_pow2_bits_low.
  - destruct (Z.eq_dec b 0) as [->|Hb0].
    + rewrite Z.bits_0. apply andb_false_r.
    + rewrite (Z.bits_above_log2 b k); [apply andb_false_r | lia |].
      apply Z.log2_lt_pow2; [lia|].
      eapply Z.lt_le_trans; [apply Hb|].
      apply Z.pow_le_mono_r; lia.
Qed.

Lemma lor_const_add (c b n : Z) :
  0 <= n -> 0 <= b < 2 ^ n -> c mod 2 ^ n = 0 -> Z.lor c b = c + b.
Proof.
  intros Hn Hb Hc.
  assert (0 < 2 ^ n) as Hpos by (apply Z.pow_pos_nonneg; lia).
  assert (c = Z.shiftl (c / 2 ^ n) n) as E.
  { rewrite Z.shiftl_mul_pow2 by assumption.
    pose proof (Z.div_mod c (2 ^ n)). lia. }
  rewrite E at 1. rewrite lor_shiftl_add by assumption.
  pose proof (Z.div_mod c (2 ^ n)). lia.
Qed.

Lemma land_3 (x : Z) : Z.land x 3 = x mod 4.
Proof. apply (Z.land_ones x 2). lia. Qed.

Lemma land_15 (x : Z) : Z.land x 15 = x mod 16.
Proof. apply (Z.land_ones x 4). lia. Qed.

Lemma land_63 (x : Z) : Z.land x 63 = x mod 64.
Proof. apply (Z.land_ones x 6). lia. Qed.

Lemma land_255 (x : Z) : Z.land x 255 = x mod 256.
Proof. apply (Z.land_ones x 8). lia. Qed.

End Bits.

(** Shifts and masks by constants, as quotients and remainders. *)
Ltac to_arith :=
  repeat first
    [ rewrite Z.shiftr_div_pow2 by lia
    | rewrite Z.shiftl_mul_pow2 by lia ];
  rewrite ?Bits.land_3, ?Bits.land_15, ?Bits.land_63, ?Bits.land_255;
  change (2 ^ 2) with 4; change (2 ^ 4) with 16; change (2 ^ 6) with 64;
  change (2 ^ 8) with 256; change (2 ^ 12) with 4096;
  change (2 ^ 18) with 262144.

Ltac arith := to_arith; Z.div_mod_to_equations; lia.

(** An inner-most [lor] of a shifted value and a small one, as a sum. *)
Ltac lor_step :=
  match goal with
  | |- context [Z.lor (Z.shiftl ?a ?n) ?b] =>
      rewrite (Bits.lor_shiftl_add a b n) by (try lia; arith)
  end.

Ltac bits := repeat lor_step; arith.

(* ================================================================== *)
(** * [base64]: decoding undoes encoding *)
(* ================================================================== *)

Module Base64Facts.

Lemma below (n : nat) (P : Z -> bool) :
  forallb P (map Z.of_nat (seq 0 n)) = true ->
  forall i, 0 <= i < Z.of_nat n -> P i = true.
Proof.
  intros H i Hi. rewrite forallb_forall in H. apply H.
  rewrite <- (Z2Nat.id i) by lia. apply in_map. apply in_seq. lia.
Qed.

(** The two tables are inverse on the 64 digits, which are ASCII and
    differ from the pad. *)
Lemma table_digit (i : Z) :
  0 <= i < 64 ->
  table_a2b_base64 (table_b2a_base64 i) = i
  /\ table_b2a_base64 i <> BASE64_PAD
  /\ 0 <= table_b2a_base64 i < 128.
Proof.
  intros Hi.
  pose proof (below 64
    (fun i => (table_a2b_base64 (table_b2a_base64 i) =? i)
              && negb (table_b2a_base64 i =? BASE64_PAD)
              && (0 <=? table_b2a_base64 i)
              && (table_b2a_base64 i <? 128)) eq_refl i Hi) as H.
  simpl in H.
  repeat (apply andb_true_iff in H as [H ?]).
  repeat split; lia.
Qed.

(** One digit through the loop. *)
Lemma a2b_digit (i : Z) (rest : pybytes) (q l p : Z) (out : pybytes) :
  0 <= i < 64 ->
  a2b_loop (table_b2a_base64 i :: rest) q l p out
  = if q =? 0 then a2b_loop rest 1 i 0 out
    else if q =? 1 then
      a2b_loop rest 2 (Z.land i 0x0f) 0
        (out ++ [u8 (Z.lor (Z.shiftl l 2) (Z.shiftr i 4))])
    else if q =? 2 then
      a2b_loop rest 3 (Z.land i 0x03) 0
        (out ++ [u8 (Z.lor (Z.shiftl l 4) (Z.shiftr i 2))])
    else a2b_loop rest 0 0 0 (out ++ [u8 (Z.lor (Z.shiftl l 6) i)]).
Proof.
  intros Hi. destruct (table_digit i Hi) as (Ht & Hp & _).
  cbn [a2b_loop].
  rewrite (proj2 (Z.eqb_neq _ _) Hp), Ht.
  now rewrite (proj2 (Z.leb_gt 64 i)) by lia.
Qed.

Lemma octet_inv (x : Z) (l : pybytes) :
  Forall octet (x :: l) -> 0 <= x < 256 /\ Forall octet l.
Proof. intros H. inversion H; subst. now split. Qed.

Lemma a2b_three (x y z : Z) (rest out : pybytes) :
  0 <= x < 256 -> 0 <= y < 256 -> 0 <= z < 256 ->
  a2b_loop
    (table_b2a_base64 (Z.shiftr x 2)
     :: table_b2a_base64 (Z.lor (Z.shiftl (Z.land x 0x03) 4) (Z.shiftr y 4))
     :: table_b2a_base64 (Z.lor (Z.shiftl (Z.land y 0x0f) 2) (Z.shiftr z 6))
     :: table_b2a_base64 (Z.land z 0x3f) :: rest) 0 0 0 out
  = a2b_loop rest 0 0 0 (out ++ [x; y; z]).
Proof.
  intros Hx Hy Hz.
  rewrite a2b_digit by bits. simpl (0 =? 0). cbv iota.
  rewrite a2b_digit by bits. simpl (1 =? 0). simpl (1 =? 1). cbv iota.
  rewrite a2b_digit by bits. simpl (2 =? 0). simpl (2 =? 1). simpl (2 =? 2). cbv iota.
  rewrite a2b_digit by bits. simpl (3 =? 0). simpl (3 =? 1). simpl (3 =? 2). cbv iota.
  rewrite <- !app_assoc. cbn [app]. unfold u8.
  f_equal. f_equal. f_equal; [|f_equal; [|f_equal]]; bits.
Qed.

Lemma a2b_pad_pad (l : Z) (out : pybytes) :
  a2b_loop [BASE64_PAD; BASE64_PAD] 2 l 0 out = Ret out.
Proof. reflexivity. Qed.

Lemma a2b_pad (l : Z) (out : pybytes) :
  a2b_loop [BASE64_PAD] 3 l 0 out = Ret out.
Proof. reflexivity. Qed.

Lemma a2b_one (x : Z) (out : pybytes) :
  0 <= x < 256 ->
  a2b_loop
    [table_b2a_base64 (Z.shiftr x 2);
     table_b2a_base64 (Z.shiftl (Z.land x 0x03) 4);
     BASE64_PAD; BASE64_PAD] 0 0 0 out
  = Ret (out ++ [x]).
Proof.
  intros Hx.
  rewrite a2b_digit by bits. simpl (0 =? 0). cbv iota.
  rewrite a2b_digit by bits. simpl (1 =? 0). simpl (1 =? 1). cbv iota.
  rewrite a2b_pad_pad. unfold u8. do 3 f_equal. bits.
Qed.

Lemma a2b_two (x y : Z) (out : pybytes) :
  0 <= x < 256 -> 0 <= y < 256 ->
  a2b_loop
    [table_b2a_base64 (Z.shiftr x 2);
     table_b2a_base64 (Z.lor (Z.shiftl (Z.land x 0x03) 4) (Z.shiftr y 4));
     table_b2a_base64 (Z.shiftl (Z.land y 0x0f) 2);
     BASE64_PAD] 0 0 0 out
  = Ret (out ++ [x; y]).
Proof.
  intros Hx Hy.
  rewrite a2b_digit by bits. simpl (0 =? 0). cbv iota.
  rewrite a2b_digit by bits. simpl (1 =? 0). simpl (1 =? 1). cbv iota.
  rewrite a2b_digit by bits.
  simpl (2 =? 0). simpl (2 =? 1). simpl (2 =? 2). cbv iota.
  rewrite a2b_pad. rewrite <- !app_assoc. cbn [app]. unfold u8.
  do 2 f_equal. f_equal; [|f_equal]; bits.
Qed.

(** Induction three octets at a time, the way the encoder reads. *)
Lemma list_ind3 (P : pybytes -> Prop) :
  P [] -> (forall x, P [x]) -> (forall x y, P [x; y]) ->
  (forall x y z l, P l -> P (x :: y :: z :: l)) ->
  forall l, P l.
Proof.
  intros H0 H1 H2 H3 l.
  assert (P l /\ (forall x, P (x :: l)) /\ (forall x y, P (x :: y :: l)))
    as H; [|apply H].
  induction l as [|z l (IH0 & IH1 & IH2)]; repeat split; auto.
Qed.

Lemma a2b_loop_encode (b : pybytes) :
  Forall octet b ->
  forall out, a2b_loop (b64encode b) 0 0 0 out = Ret (out ++ b).
Proof.
  induction b as [|x|x y|x y z l IH] using list_ind3; intros Hb out.
  - simpl. now rewrite app_nil_r.
  - apply octet_inv in Hb as [Hx _]. now apply a2b_one.
  - apply octet_inv in Hb as [Hx Hb]. apply octet_inv in Hb as [Hy _].
    now apply a2b_two.
  - apply octet_inv in Hb as [Hx Hb]. apply octet_inv in Hb as [Hy Hb].
    apply octet_inv in Hb as [Hz Hb].
    cbn [b64encode]. rewrite a2b_three by assumption.
    rewrite IH by assumption. now rewrite <- app_assoc.
Qed.

Lemma str_encode_ascii_id (s : pystr) :
  Forall seven_bit s -> str_encode_ascii s = Ret s.
Proof.
  induction 1 as [|c s Hc Hs IH]; simpl; [reflexivity|].
  unfold seven_bit in Hc.
  rewrite (proj2 (Z.leb_le 0 c)), (proj2 (Z.ltb_lt c 128)) by lia.
  simpl. now rewrite IH.
Qed.

Lemma digit_ascii (i : Z) : 0 <= i < 64 -> seven_bit (table_b2a_base64 i).
Proof. intros Hi. now destruct (table_digit i Hi) as (_ & _ & H). Qed.

Lemma b64encode_ascii (b : pybytes) :
  Forall octet b -> Forall seven_bit (b64encode b).
Proof.
  induction b as [|x|x y|x y z l IH] using list_ind3; intros Hb.
  - constructor.
  - apply octet_inv in Hb as [Hx _].
    cbn [b64encode].
    repeat (constructor; [first [apply digit_ascii; bits | unfold seven_bit, BASE64_PAD; lia]|]).
    constructor.
  - apply octet_inv in Hb as [Hx Hb]. apply octet_inv in Hb as [Hy _].
    cbn [b64encode].
    repeat (constructor; [first [apply digit_ascii; bits | unfold seven_bit, BASE64_PAD; lia]|]).
    constructor.
  - apply octet_inv in Hb as [Hx Hb]. apply octet_inv in Hb as [Hy Hb].
    apply octet_inv in Hb as [Hz Hb].
    cbn [b64encode].
    repeat (constructor; [apply digit_ascii; bits|]).
    now apply IH.
Qed.

(** Decoding the encoding of octets gives them back. *)
Lemma b64decode_b64encode (b : pybytes) :
  Forall octet b -> b64decode (b64encode b) = Ret b.
Proof.
  intros Hb. unfold b64decode, bytes_from_decode_data.
  rewrite str_encode_ascii_id by now apply b64encode_ascii.
  simpl. unfold a2b_base64. now rewrite a2b_loop_encode.
Qed.

End Base64Facts.

(* ================================================================== *)
(** * [utf-8]: decoding undoes encoding *)
(* ================================================================== *)

(** Settle the comparisons of the goal from the context. *)
Ltac tests :=
  repeat match goal with
  | |- context [Z.ltb ?a ?b] => destruct (Z.ltb_spec a b); try lia
  | |- context [Z.leb ?a ?b] => destruct (Z.leb_spec a b); try lia
  | |- context [Z.eqb ?a ?b] => destruct (Z.eqb_spec a b); try lia
  end; cbn [negb andb orb].

Module Utf8Facts.

Lemma decode_1 (b0 : Z) (rest : pybytes) :
  0 <= b0 < 0x80 ->
  bytes_decode_utf8 (b0 :: rest)
  = (r <- bytes_decode_utf8 rest ;; Ret (b0 :: r)).
Proof. intros H. cbn [bytes_decode_utf8]. tests. reflexivity. Qed.

Lemma decode_2 (b0 b1 : Z) (rest : pybytes) (ch : Z) :
  0xC2 <= b0 < 0xE0 -> 0x80 <= b1 < 0xC0 ->
  ch = b0 * 64 + b1 - 12416 ->
  bytes_decode_utf8 (b0 :: b1 :: rest)
  = (r <- bytes_decode_utf8 rest ;; Ret (ch :: r)).
Proof.
  intros H0 H1 ->. cbn [bytes_decode_utf8]. unfold is_continuation_byte.
  tests. rewrite !Z.shiftl_mul_pow2 by lia. reflexivity.
Qed.

Lemma decode_3 (b0 b1 b2 : Z) (rest : pybytes) (ch : Z) :
  0xE0 <= b0 < 0xF0 -> 0x80 <= b1 < 0xC0 -> 0x80 <= b2 < 0xC0 ->
  (b0 = 0xE0 -> 0xA0 <= b1) -> (b0 = 0xED -> b1 < 0xA0) ->
  ch = b0 * 4096 + b1 * 64 + b2 - 925824 ->
  bytes_decode_utf8 (b0 :: b1 :: b2 :: rest)
  = (r <- bytes_decode_utf8 rest ;; Ret (ch :: r)).
Proof.
  intros H0 H1 H2 Hlo Hhi ->. cbn [bytes_decode_utf8].
  unfold is_continuation_byte.
  tests; rewrite !Z.shiftl_mul_pow2 by lia; reflexivity.
Qed.

Lemma decode_4 (b0 b1 b2 b3 : Z) (rest : pybytes) (ch : Z) :
  0xF0 <= b0 < 0xF5 -> 0x80 <= b1 < 0xC0 -> 0x80 <= b2 < 0xC0 ->
  0x80 <= b3 < 0xC0 ->
  (b0 = 0xF0 -> 0x90 <= b1) -> (b0 = 0xF4 -> b1 < 0x90) ->
  ch = b0 * 262144 + b1 * 4096 + b2 * 64 + b3 - 63447168 ->
  bytes_decode_utf8 (b0 :: b1 :: b2 :: b3 :: rest)
  = (r <- bytes_decode_utf8 rest ;; Ret (ch :: r)).
Proof.
  intros H0 H1 H2 H3 Hlo Hhi ->. cbn [bytes_decode_utf8].
  unfold is_continuation_byte.
  tests; rewrite !Z.shiftl_mul_pow2 by lia; reflexivity.
Qed.

(** The trailing octet of a sequence: 10xxxxxx. *)
Lemma trail (x : Z) : Z.lor 0x80 (Z.land x 0x3F) = 128 + x mod 64.
Proof.
  rewrite Bits.land_63.
  apply (Bits.lor_const_add 128 (x mod 64) 7); [lia | | reflexivity].
  change (2 ^ 7) with 128. Z.div_mod_to_equations. lia.
Qed.

Lemma lead (c x n : Z) :
  0 <= n -> 0 <= x < 2 ^ n -> c mod 2 ^ n = 0 -> Z.lor c x = c + x.
Proof. intros. now apply (Bits.lor_const_add c x n). Qed.

(** One character: its encoding is made of octets and decodes to it. *)
Lemma utf8_char (ch : Z) (bs : pybytes) :
  utf8_encode_char ch = Ret bs ->
  Forall octet bs
  /\ forall rest,
      bytes_decode_utf8 (bs ++ rest)
      = (r <- bytes_decode_utf8 rest ;; Ret (ch :: r)).
Proof.
  unfold utf8_encode_char.
  destruct (Z.ltb_spec ch 0); [discriminate|].
  destruct (Z.ltb_spec ch 0x80).
  { intros [= <-]. split; [repeat constructor; unfold octet; lia|].
    intros rest. cbn [app]. now apply decode_1. }
  destruct (Z.ltb_spec ch 0x800).
  { intros Hbs; apply ret_inj in Hbs; subst bs. rewrite trail.
    rewrite (lead 0xC0 (Z.shiftr ch 6) 6) by (try reflexivity; arith).
    rewrite Z.shiftr_div_pow2 by lia. change (2 ^ 6) with 64.
    split; [repeat constructor; unfold octet; Z.div_mod_to_equations; lia|].
    intros rest. cbn [app].
    now rewrite (decode_2 _ _ _ ch) by (Z.div_mod_to_equations; lia). }
  destruct (Z.leb_spec 0xD800 ch); destruct (Z.leb_spec ch 0xDFFF);
    cbn [andb]; try discriminate.
  all: destruct (Z.ltb_spec ch 0x10000).
  all: try (destruct (Z.leb_spec ch 0x10FFFF); [|discriminate]).
  all: try (exfalso; lia).
  all: intros Hbs; apply ret_inj in Hbs; subst bs; rewrite !trail.
  all: try rewrite (lead 0xE0 (Z.shiftr ch 12) 5) by (try reflexivity; arith).
  all: try rewrite (lead 0xF0 (Z.shiftr ch 18) 4) by (try reflexivity; arith).
  all: rewrite !Z.shiftr_div_pow2 by lia.
  all: change (2 ^ 6) with 64; change (2 ^ 12) with 4096;
    change (2 ^ 18) with 262144.
  all: (split; [repeat constructor; unfold octet; Z.div_mod_to_equations; lia|]).
  all: intros rest; cbn [app].
  all: first [rewrite (decode_3 _ _ _ _ ch) by (Z.div_mod_to_equations; lia)
             |rewrite (decode_4 _ _ _ _ _ ch) by (Z.div_mod_to_equations; lia)].
  all: reflexivity.
Qed.

Lemma utf8_octets (s : pystr) (b : pybytes) :
  str_encode_utf8 s = Ret b -> Forall octet b.
Proof.
  revert b; induction s as [|ch s IH]; simpl; intros b H.
  - injection H as <-. constructor.
  - destruct (utf8_encode_char ch) as [bs|] eqn:Hc; [|discriminate].
    simpl in H. destruct (str_encode_utf8 s) as [b'|]; [|discriminate].
    simpl in H. injection H as <-.
    apply Forall_app. split; [now apply (utf8_char ch) | now apply IH].
Qed.

(** Decoding the encoding of a text gives it back. *)
Lemma utf8_roundtrip (s : pystr) (b : pybytes) :
  str_encode_utf8 s = Ret b -> bytes_decode_utf8 b = Ret s.
Proof.
  revert b; induction s as [|ch s IH]; simpl; intros b H.
  - now injection H as <-.
  - destruct (utf8_encode_char ch) as [bs|] eqn:Hc; [|discriminate].
    simpl in H. destruct (str_encode_utf8 s) as [b'|]; [|discriminate].
    simpl in H. injection H as <-.
    destruct (utf8_char ch bs Hc) as [_ Hd].
    rewrite Hd, (IH b' eq_refl). reflexivity.
Qed.

(** Every text of scalar values has an encoding. *)
Lemma utf8_encodes (s : pystr) :
  Forall scalar s -> exists b, str_encode_utf8 s = Ret b.
Proof.
  induction 1 as [|ch s [Hr Hs] _ [b IH]]; simpl; [now eexists|].
  rewrite IH. unfold utf8_encode_char.
  tests; simpl; eexists; reflexivity.
Qed.

End Utf8Facts.

(* ================================================================== *)
(** * The stages that only look at their argument *)
(* ================================================================== *)

Module StageFacts.
Import BasicAuth.

(** Stage 1 on a header that carries the prefix. *)
Lemma extract_prefixed (t : pystr) :
  extract_base64_authorization_header (PStr (py:"Basic " ++ t))
  = Ret (PStr t).
Proof.
  unfold extract_base64_authorization_header. simpl is_none. cbv iota.
  rewrite (startswith_app py:"Basic " t). reflexivity.
Qed.

Lemma extract_not_str (v : pyval) :
  isinstance_str v = false ->
  extract_base64_authorization_header v = Ret PNone.
Proof. destruct v; simpl; intros; congruence || reflexivity. Qed.

(** C4. For every string [s]: if [s] does not start with the
    case-sensitive six-character prefix "Basic " (or the argument is
    none or not a string), [extract_base64_authorization_header]
    returns none; if it does, the result is exactly the rest of [s]
    after the first six characters. *)
Theorem extract_token_spec :
  (forall t : pystr,
      extract_base64_authorization_header (PStr (py:"Basic " ++ t))
      = Ret (PStr t)
      /\ skipn 6 (py:"Basic " ++ t) = t)
  /\ (forall s : pystr,
         startswith s py:"Basic " = true ->
         extract_base64_authorization_header (PStr s)
         = Ret (PStr (skipn 6 s)))
  /\ (forall s : pystr,
         (forall t, s <> py:"Basic " ++ t) ->
         extract_base64_authorization_header (PStr s) = Ret PNone)
  /\ (forall v : pyval,
         isinstance_str v = false ->
         extract_base64_authorization_header v = Ret PNone)
  /\ extract_base64_authorization_header (PStr py:"basic dGVzdA==")
     = Ret PNone.
Proof.
  split; [|split; [|split; [|split]]].
  - intros t. split; [apply extract_prefixed | reflexivity].
  - intros s H. unfold extract_base64_authorization_header.
    simpl is_none. cbv iota. now rewrite H.
  - intros s H. unfold extract_base64_authorization_header.
    simpl is_none. cbv iota.
    destruct (startswith s py:"Basic ") eqn:E; [|reflexivity].
    exfalso. apply (H (skipn 6 s)). now apply startswith_inv in E.
  - apply extract_not_str.
  - reflexivity.
Qed.

Lemma split_colon (a b : pystr) :
  contains 58 a = false ->
  extract_user_credentials (PStr (a ++ 58 :: b)) = Ret (PStr a, PStr b).
Proof.
  intros H. unfold extract_user_credentials. simpl is_none. cbv iota.
  rewrite contains_app. simpl. rewrite orb_true_r. simpl.
  now rewrite (split_once_first _ _ _ H).
Qed.

Lemma split_no_colon (s : pystr) :
  contains 58 s = false ->
  extract_user_credentials (PStr s) = Ret (PNone, PNone).
Proof.
  intros H. unfold extract_user_credentials. simpl. now rewrite H.
Qed.

Lemma split_not_str (v : pyval) :
  isinstance_str v = false ->
  extract_user_credentials v = Ret (PNone, PNone).
Proof. destruct v; simpl; intros; congruence || reflexivity. Qed.

(** C6. For every string with at least one colon,
    [extract_user_credentials] splits at the first colon only and
    returns what is before it and everything after it, so the password
    may itself contain colons; for a string with no colon, for none and
    for a value that is not a string it returns (none, none). *)
Theorem split_credentials_first_colon :
  (forall s : pystr,
      In 58 s ->
      exists a b,
        s = a ++ 58 :: b /\ ~ In 58 a
        /\ extract_user_credentials (PStr s) = Ret (PStr a, PStr b))
  /\ (forall a b : pystr,
         ~ In 58 a ->
         extract_user_credentials (PStr (a ++ py:":" ++ b))
         = Ret (PStr a, PStr b))
  /\ extract_user_credentials (PStr py:"aa:bb:cc")
     = Ret (PStr py:"aa", PStr py:"bb:cc")
  /\ (forall s : pystr,
         ~ In 58 s ->
         extract_user_credentials (PStr s) = Ret (PNone, PNone))
  /\ (forall v : pyval,
         isinstance_str v = false ->
         extract_user_credentials v = Ret (PNone, PNone)).
Proof.
  split; [|split; [|split; [|split]]].
  - intros s H. apply contains_true_iff in H.
    destruct (contains_split _ _ H) as (a & b & -> & Ha).
    exists a, b. split; [reflexivity|]. split.
    + now apply contains_false_iff.
    + now apply split_colon.
  - intros a b H. apply split_colon. now apply contains_false_iff.
  - reflexivity.
  - intros s H. apply split_no_colon. now apply contains_false_iff.
  - apply split_not_str.
Qed.

Lemma split_credentials_cases (s : pystr) :
  extract_user_credentials (PStr s) = Ret (PNone, PNone)
  \/ exists user password,
      extract_user_credentials (PStr s) = Ret (PStr user, PStr password).
Proof.
  destruct (contains 58 s) eqn:E.
  - right. destruct (contains_split _ _ E) as (a & b & -> & Ha).
    exists a, b. now apply split_colon.
  - left. now apply split_no_colon.
Qed.

(** C9. Whatever its argument, [extract_user_credentials] returns
    either two strings or exactly (none, none), never a pair with one
    none and one string; so the caller's test that either component is
    none holds exactly when the stage failed. *)
Theorem split_credentials_never_mixed :
  forall v : pyval,
    (extract_user_credentials v = Ret (PNone, PNone)
     \/ exists user password,
         extract_user_credentials v = Ret (PStr user, PStr password))
    /\ (forall user_email user_pwd,
           extract_user_credentials v = Ret (user_email, user_pwd) ->
           is_none user_email || is_none user_pwd
           = is_none user_email && is_none user_pwd).
Proof.
  intros v.
  assert (extract_user_credentials v = Ret (PNone, PNone)
          \/ exists user password,
              extract_user_credentials v = Ret (PStr user, PStr password))
    as H.
  { destruct v as [|s| | |]; try (left; reflexivity).
    apply split_credentials_cases. }
  split; [exact H|].
  intros e p Hv. destruct H as [H | (a & b & H)];
    rewrite H in Hv; injection Hv as <- <-; reflexivity.
Qed.

End StageFacts.

(* ================================================================== *)
(** * Stage 2: decoding absorbs every failure *)
(* ================================================================== *)

Module DecodeFacts.
Import BasicAuth.


Lemma decode_b64_raises (s : pystr) :
  raises (b64decode s) ->
  decode_base64_authorization_header (PStr s) = Ret PNone.
Proof.
  intros [e H]. unfold decode_base64_authorization_header. simpl.
  now rewrite H.
Qed.

Lemma decode_utf8_raises (s : pystr) (b : pybytes) :
  b64decode s = Ret b -> raises (bytes_decode_utf8 b) ->
  decode_base64_authorization_header (PStr s) = Ret PNone.
Proof.
  intros Hb [e H]. unfold decode_base64_authorization_header. simpl.
  rewrite Hb. simpl. now rewrite H.
Qed.

Lemma decode_ok (s : pystr) (b : pybytes) (t : pystr) :
  b64decode s = Ret b -> bytes_decode_utf8 b = Ret t ->
  decode_base64_authorization_header (PStr s) = Ret (PStr t).
Proof.
  intros Hb Ht. unfold decode_base64_authorization_header. simpl.
  rewrite Hb. simpl. now rewrite Ht.
Qed.

(** The result is none or a string, never an exception. *)
Lemma decode_total (v : pyval) :
  decode_base64_authorization_header v = Ret PNone
  \/ exists t, decode_base64_authorization_header v = Ret (PStr t).
Proof.
  destruct v as [|s| | |]; try (left; reflexivity).
  destruct (b64decode s) as [b|e] eqn:Hb.
  - destruct (bytes_decode_utf8 b) as [t|e] eqn:Ht.
    + right. exists t. now apply (decode_ok s b).
    + left. apply (decode_utf8_raises s b); [assumption | now exists e].
  - left. apply decode_b64_raises. now exists e.
Qed.

End DecodeFacts.

(* ================================================================== *)
(** * Stage 2: the tokens the decoder rejects *)
(* ================================================================== *)

Module RejectFacts.
Import BasicAuth Base64Facts DecodeFacts.

(** A character that [ascii] cannot carry makes [b64decode] raise. *)
Lemma b64decode_non_ascii (s : pystr) :
  Exists (fun c => ~ seven_bit c) s -> raises (b64decode s).
Proof.
  intros H. unfold b64decode, bytes_from_decode_data.
  assert (raises (str_encode_ascii s)) as [e He].
  { induction H as [c s Hc | c s _ IH]; simpl.
    - unfold seven_bit in Hc.
      destruct (Z.leb_spec 0 c); destruct (Z.ltb_spec c 128);
        simpl; try (now eexists). lia.
    - destruct ((0 <=? c) && (c <? 128)); [|now eexists].
      destruct IH as [e ->]. now eexists. }
  rewrite He. now eexists.
Qed.

Lemma seven_bit_dec (s : pystr) :
  Forall seven_bit s \/ Exists (fun c => ~ seven_bit c) s.
Proof.
  induction s as [|c s [IH|IH]].
  - left. constructor.
  - destruct (Z_le_dec 0 c) as [H0|H0]; [destruct (Z_lt_dec c 128) as [H1|H1]|].
    + left. constructor; [split; assumption | assumption].
    + right. left. unfold seven_bit. lia.
    + right. left. unfold seven_bit. lia.
  - right. now right.
Qed.

Lemma seven_bit_not_both (s : pystr) :
  Forall seven_bit s -> Exists (fun c => ~ seven_bit c) s -> False.
Proof.
  intros Hf He. apply Exists_exists in He as (c & Hin & Hc).
  rewrite Forall_forall in Hf. now apply Hc, Hf.
Qed.

(** The loop raises exactly when the data is left unclosed. *)
Lemma a2b_loop_unclosed (data : pybytes) :
  forall q l p p' out,
    0 <= q < 4 -> (2 <= q -> p = p') ->
    (raises (a2b_loop data q l p out) <-> unclosed q p' data = true).
Proof.
  induction data as [|c data IH]; intros q l p p' out Hq Hp.
  - cbn [a2b_loop unclosed]. destruct (Z.eqb_spec q 0); cbn [negb].
    + split; [intros [? ?]; discriminate | discriminate].
    + split; [reflexivity | now eexists].
  - cbn [a2b_loop unclosed].
    destruct (Z.eqb_spec c BASE64_PAD) as [->|Hc].
    + destruct (Z.leb_spec 2 q) as [H2|H2]; cbn [andb].
      * rewrite <- (Hp H2).
        destruct (Z.leb_spec 4 (q + (p + 1))).
        -- split; [intros [? ?]; discriminate | discriminate].
        -- apply IH; [assumption | reflexivity].
      * apply IH; [assumption | lia].
    + unfold is_digit.
      destruct (Z.leb_spec 64 (table_a2b_base64 c));
        destruct (Z.ltb_spec (table_a2b_base64 c) 64); try lia.
      * now apply IH.
      * destruct (Z.eqb_spec q 0) as [->|];
          [|destruct (Z.eqb_spec q 1) as [->|];
            [|destruct (Z.eqb_spec q 2) as [->|]]].
        -- apply (IH 1); lia.
        -- apply (IH 2); lia.
        -- apply (IH 3); lia.
        -- assert (q = 3) as -> by lia. apply (IH 0); lia.
Qed.

(** For a token of ASCII characters, [b64decode] raises exactly when the
    padding is insufficient. *)
Lemma b64decode_insufficient (s : pystr) :
  Forall seven_bit s ->
  (raises (b64decode s) <-> insufficient_padding s = true).
Proof.
  intros Ha. unfold b64decode, bytes_from_decode_data.
  rewrite str_encode_ascii_id by assumption. cbn [rcatch rbind].
  unfold a2b_base64, insufficient_padding.
  apply a2b_loop_unclosed; [lia | reflexivity].
Qed.

(** In a text without '=', only the number of digits counts. *)
Lemma unclosed_no_pad (body tail : pystr) :
  ~ In BASE64_PAD body ->
  forall q, 0 <= q < 4 ->
    unclosed q 0 (body ++ tail)
    = unclosed ((q + digit_count body) mod 4) 0 tail.
Proof.
  unfold digit_count.
  induction body as [|c body IH]; intros Hpad q Hq.
  - cbn [app filter length]. f_equal. Z.div_mod_to_equations; lia.
  - assert (c <> BASE64_PAD) as Hc by (intros ->; apply Hpad; now left).
    assert (~ In BASE64_PAD body) as Hb by (intros H; apply Hpad; now right).
    cbn [app unclosed filter]. rewrite (proj2 (Z.eqb_neq _ _) Hc).
    destruct (is_digit c).
    + rewrite IH by (assumption || (Z.div_mod_to_equations; lia)).
      cbn [length]. rewrite Nat2Z.inj_succ. f_equal.
      Z.div_mod_to_equations; lia.
    + now apply IH.
Qed.

(** In a text without digits, only the number of '=' counts. *)
Lemma unclosed_no_digit (tail : pystr) :
  filter is_digit tail = [] ->
  forall q p, 0 <= q < 4 -> 0 <= p -> (2 <= q -> q + p < 4) ->
    (unclosed q p tail = true
     <-> q = 1 \/ (q = 2 /\ p + pad_count tail < 2)
         \/ (q = 3 /\ p + pad_count tail < 1)).
Proof.
  unfold pad_count.
  induction tail as [|c tail IH]; intros Hd q p Hq Hp Hqp.
  - cbn [unclosed filter length]. destruct (Z.eqb_spec q 0); cbn [negb].
    + split; [discriminate | lia].
    + split; [lia | reflexivity].
  - cbn [filter] in Hd. cbn [unclosed filter].
    rewrite (Z.eqb_sym BASE64_PAD c).
    destruct (Z.eqb_spec c BASE64_PAD) as [->|Hc].
    + assert (is_digit BASE64_PAD = false) as E by reflexivity.
      rewrite E in Hd. cbn [length]. rewrite Nat2Z.inj_succ.
      destruct (Z.leb_spec 2 q); cbn [andb];
        [destruct (Z.leb_spec 4 (q + (p + 1)))|].
      * split; [discriminate | lia].
      * rewrite IH by (assumption || lia). lia.
      * rewrite IH by (assumption || lia). lia.
    + destruct (is_digit c); [discriminate|]. now apply IH.
Qed.

(** A token whose '=' all come after its last digit. *)
Lemma insufficient_trailing (body tail : pystr) :
  ~ In BASE64_PAD body -> filter is_digit tail = [] ->
  (insufficient_padding (body ++ tail) = true
   <-> digit_count body mod 4 = 1
       \/ (digit_count body mod 4 = 2 /\ pad_count tail < 2)
       \/ (digit_count body mod 4 = 3 /\ pad_count tail < 1)).
Proof.
  intros Hb Ht. unfold insufficient_padding.
  rewrite unclosed_no_pad by (assumption || lia).
  rewrite unclosed_no_digit
    by (assumption || lia || (Z.div_mod_to_equations; lia)).
  cbn [Z.add]. reflexivity.
Qed.

(** When the decoding stage returns none. *)
Lemma decode_none_iff (token : pystr) :
  decode_base64_authorization_header (PStr token) = Ret PNone
  <-> Exists (fun c => ~ seven_bit c) token
      \/ (Forall seven_bit token /\ insufficient_padding token = true)
      \/ (exists b, b64decode token = Ret b /\ raises (bytes_decode_utf8 b)).
Proof.
  split.
  - intros H. destruct (b64decode token) as [b|e] eqn:Hb.
    + right. right. exists b. split; [reflexivity|].
      destruct (bytes_decode_utf8 b) as [t|e] eqn:Ht; [|now eexists].
      rewrite (decode_ok token b t Hb Ht) in H. discriminate.
    + destruct (seven_bit_dec token) as [Ha|Ha]; [|now left].
      right. left. split; [assumption|].
      apply b64decode_insufficient; [assumption|]. rewrite Hb. now eexists.
  - intros [H|[[Ha H]|(b & Hb & H)]].
    + now apply decode_b64_raises, b64decode_non_ascii.
    + now apply decode_b64_raises, b64decode_insufficient.
    + now apply (decode_utf8_raises token b).
Qed.

End RejectFacts.

(* ================================================================== *)
(** * Stages 4 and 5: the user store and the whole pipeline *)
(* ================================================================== *)

Module SchemeFacts.
Import BasicAuth StageFacts DecodeFacts RejectFacts.

Section WithStore.

Context {Request User : Type}.
Variable getHeader : Request -> pystr -> option pystr.
Variable search : pystr -> res (list User).
Variable is_valid_password : User -> pystr -> bool.

Local Abbreviation first_valid := (first_valid is_valid_password).
Local Abbreviation user_object_from_credentials :=
  (user_object_from_credentials search is_valid_password).
Local Abbreviation authorization_header := (authorization_header getHeader).
Local Abbreviation current_user :=
  (current_user getHeader search is_valid_password).

Lemma first_valid_hit (l1 l2 : list User) (u : User) (pwd : pystr) :
  (forall x, In x l1 -> is_valid_password x pwd = false) ->
  is_valid_password u pwd = true ->
  first_valid (l1 ++ u :: l2) pwd = (checks (l1 ++ [u]) pwd, Ret (Some u)).
Proof.
  intros Hl1 Hu. induction l1 as [|x l1 IH]; simpl.
  - now rewrite Hu.
  - rewrite (Hl1 x) by now left.
    rewrite IH by (intros y Hy; apply Hl1; now right). reflexivity.
Qed.

Lemma first_valid_miss (l : list User) (pwd : pystr) :
  (forall x, In x l -> is_valid_password x pwd = false) ->
  first_valid l pwd = (checks l pwd, Ret None).
Proof.
  intros Hl. induction l as [|x l IH]; simpl; [reflexivity|].
  rewrite (Hl x) by now left.
  rewrite IH by (intros y Hy; apply Hl; now right). reflexivity.
Qed.

(** The loop never raises; a user it returns passed the check, and
    the check is on record. *)
Lemma first_valid_sound (l : list User) (pwd : pystr) :
  exists r,
    outcome (first_valid l pwd) = Ret r
    /\ forall u, r = Some u ->
         In u l /\ is_valid_password u pwd = true
         /\ In (IsValidPassword u pwd) (trace (first_valid l pwd)).
Proof.
  induction l as [|x l (r & Hr & IH)]; simpl.
  - exists None. split; [reflexivity | discriminate].
  - destruct (is_valid_password x pwd) eqn:E.
    + exists (Some x). split; [reflexivity|].
      intros u [= <-]. repeat split; [now left | assumption | now left].
    + destruct (first_valid l pwd) as [t o] eqn:Ef. simpl in *.
      exists r. split; [assumption|].
      intros u Hu. destruct (IH u Hu) as (Hin & Hv & Ht).
      repeat split; [now right | assumption | now right].
Qed.

Lemma resolve_not_str (user_email user_pwd : pyval) :
  isinstance_str user_email = false \/ isinstance_str user_pwd = false ->
  user_object_from_credentials user_email user_pwd = ([], Ret None).
Proof.
  unfold BasicAuth.user_object_from_credentials.
  destruct user_email, user_pwd; simpl; intros [H|H];
    congruence || reflexivity.
Qed.

Lemma resolve_store_error (email pwd : pystr) :
  raises (search email) ->
  user_object_from_credentials (PStr email) (PStr pwd)
  = ([Search email], Ret None).
Proof.
  intros [e H]. unfold BasicAuth.user_object_from_credentials. simpl.
  unfold try_except, call. now rewrite H.
Qed.

Lemma resolve_store_ok (email pwd : pystr) (users : list User) :
  search email = Ret users ->
  user_object_from_credentials (PStr email) (PStr pwd)
  = (Search email :: trace (first_valid users pwd),
     outcome (first_valid users pwd)).
Proof.
  intros H. unfold BasicAuth.user_object_from_credentials. simpl.
  unfold try_except, call. rewrite H.
  now destruct (first_valid users pwd).
Qed.

Lemma resolve_sound (user_email user_pwd : pyval) :
  exists r,
    outcome (user_object_from_credentials user_email user_pwd) = Ret r
    /\ forall u, r = Some u ->
         exists pwd,
           user_pwd = PStr pwd /\ is_valid_password u pwd = true
           /\ In (IsValidPassword u pwd)
                 (trace (user_object_from_credentials user_email user_pwd)).
Proof.
  destruct (isinstance_str user_email) eqn:He;
    [destruct (isinstance_str user_pwd) eqn:Hp|].
  - destruct user_email as [|email| | |]; try discriminate.
    destruct user_pwd as [|pwd| | |]; try discriminate.
    destruct (search email) as [users|e] eqn:Hs.
    + rewrite (resolve_store_ok _ pwd _ Hs).
      destruct (first_valid_sound users pwd) as (r & Hr & H).
      exists r. split; [exact Hr|].
      intros u Hu. destruct (H u Hu) as (_ & Hv & Ht).
      exists pwd. repeat split; [assumption | now right].
    + rewrite resolve_store_error by now exists e.
      exists None. split; [reflexivity | discriminate].
  - rewrite resolve_not_str by now right.
    exists None. split; [reflexivity | discriminate].
  - rewrite resolve_not_str by now left.
    exists None. split; [reflexivity | discriminate].
Qed.

(** C7. For strings [email] and [pwd] and every user store:
    [user_object_from_credentials] returns the first user, in the
    order the store's search lists them, whose password check against
    [pwd] succeeds, having checked the ones before it and no one
    after; none if no candidate passes; and none, with nothing
    propagated, if the search itself raises. *)
Theorem resolve_principal_first_valid :
  forall email pwd : pystr,
    (forall users l1 u l2,
        search email = Ret users ->
        users = l1 ++ u :: l2 ->
        (forall x, In x l1 -> is_valid_password x pwd = false) ->
        is_valid_password u pwd = true ->
        user_object_from_credentials (PStr email) (PStr pwd)
        = (Search email :: checks (l1 ++ [u]) pwd, Ret (Some u)))
    /\ (forall users,
           search email = Ret users ->
           (forall x, In x users -> is_valid_password x pwd = false) ->
           user_object_from_credentials (PStr email) (PStr pwd)
           = (Search email :: checks users pwd, Ret None))
    /\ (forall e,
           search email = Raise e ->
           user_object_from_credentials (PStr email) (PStr pwd)
           = ([Search email], Ret None)).
Proof.
  intros email pwd. split; [|split].
  - intros users l1 u l2 Hs -> Hl1 Hu.
    rewrite (resolve_store_ok _ pwd _ Hs).
    now rewrite (first_valid_hit _ _ _ _ Hl1 Hu).
  - intros users Hs Hall.
    rewrite (resolve_store_ok _ pwd _ Hs).
    now rewrite (first_valid_miss _ _ Hall).
  - intros e Hs. apply resolve_store_error. now exists e.
Qed.

(** ** [current_user] *)

Lemma current_user_none : current_user None = ([], Ret None).
Proof. reflexivity. Qed.

Lemma current_user_no_header (request : Request) :
  getHeader request py:"Authorization" = None ->
  current_user (Some request) = ([AuthorizationHeader], Ret None).
Proof.
  intros H. unfold BasicAuth.current_user, BasicAuth.authorization_header.
  now rewrite H.
Qed.

(** The run of [current_user] on a request whose header passes the
    first three stages. *)
Lemma current_user_staged (request : Request)
      (header token decoded email pwd : pystr) :
  getHeader request py:"Authorization" = Some header ->
  extract_base64_authorization_header (PStr header) = Ret (PStr token) ->
  decode_base64_authorization_header (PStr token) = Ret (PStr decoded) ->
  extract_user_credentials (PStr decoded) = Ret (PStr email, PStr pwd) ->
  current_user (Some request)
  = ([AuthorizationHeader; ExtractBase64; DecodeBase64;
      ExtractCredentials; UserFromCredentials]
       ++ trace (user_object_from_credentials (PStr email) (PStr pwd)),
     outcome (user_object_from_credentials (PStr email) (PStr pwd))).
Proof.
  intros Hh H1 H2 H3.
  unfold BasicAuth.current_user, BasicAuth.authorization_header.
  rewrite Hh. unfold call, bind, invoke, ret. simpl is_none. cbv iota.
  rewrite H1. simpl is_none. cbv iota.
  rewrite H2. simpl is_none. cbv iota.
  rewrite H3. simpl is_none. cbv iota. simpl orb. cbv iota.
  destruct (BasicAuth.user_object_from_credentials search
              is_valid_password (PStr email) (PStr pwd)) as [t [r|e]];
    simpl; now rewrite ?app_nil_r.
Qed.

(** A request is stopped at the header, at one of the first three
    stages, or reaches the user store with two strings. *)
Lemma current_user_cases (request : Request) :
  (outcome (current_user (Some request)) = Ret None
   /\ forall ev, In ev (trace (current_user (Some request))) ->
        In ev [AuthorizationHeader; ExtractBase64; DecodeBase64;
               ExtractCredentials])
  \/ exists header token decoded email pwd,
      getHeader request py:"Authorization" = Some header
      /\ extract_base64_authorization_header (PStr header)
         = Ret (PStr token)
      /\ decode_base64_authorization_header (PStr token)
         = Ret (PStr decoded)
      /\ extract_user_credentials (PStr decoded)
         = Ret (PStr email, PStr pwd).
Proof.
  destruct (getHeader request py:"Authorization") as [header|] eqn:Hh.
  2:{ left. rewrite (current_user_no_header _ Hh). simpl.
      split; [reflexivity | intros ev [<-|[]]; now left]. }
  unfold BasicAuth.current_user, BasicAuth.authorization_header.
  rewrite Hh. unfold call, bind, invoke, ret. simpl is_none. cbv iota.
  destruct (startswith header py:"Basic ") eqn:Hp.
  2:{ left. unfold extract_base64_authorization_header.
      simpl is_none. cbv iota. rewrite Hp. simpl.
      split; [reflexivity | intros ev H; simpl; tauto]. }
  assert (extract_base64_authorization_header (PStr header)
          = Ret (PStr (skipn 6 header))) as H1.
  { unfold extract_base64_authorization_header.
    simpl is_none. cbv iota. now rewrite Hp. }
  rewrite H1. simpl is_none. cbv iota.
  destruct (decode_total (PStr (skipn 6 header))) as [H2 | [decoded H2]].
  { left. rewrite H2. simpl.
    split; [reflexivity | intros ev H; simpl; tauto]. }
  rewrite H2. simpl is_none. cbv iota.
  destruct (split_credentials_cases decoded) as [H3 | (email & pwd & H3)].
  { left. rewrite H3. simpl.
    split; [reflexivity | intros ev H; simpl; tauto]. }
  right. exists header, (skipn 6 header), decoded, email, pwd.
  repeat split; assumption.
Qed.

(** C8. [current_user] returns none when the request is none and
    when the request has no Authorization header; in the first case
    it makes no call at all, in the second only the one that reads
    the header: no pipeline stage and no call to the user store. *)
Theorem current_user_without_header :
  current_user None = ([], Ret None)
  /\ forall request : Request,
       getHeader request py:"Authorization" = None ->
       current_user (Some request) = ([AuthorizationHeader], Ret None).
Proof.
  split; [apply current_user_none | apply current_user_no_header].
Qed.

(** C2. For every request and every state of the user store, if
    [current_user] returns a user [p] then the request carried an
    Authorization header that passed the three parsing stages, and
    [p]'s password check succeeded, and was made, for the password
    those stages extracted from the header. *)
Theorem current_user_checked_password :
  forall (request : option Request) (p : User),
    outcome (current_user request) = Ret (Some p) ->
    exists r header token decoded email pwd,
      request = Some r
      /\ getHeader r py:"Authorization" = Some header
      /\ extract_base64_authorization_header (PStr header)
         = Ret (PStr token)
      /\ decode_base64_authorization_header (PStr token)
         = Ret (PStr decoded)
      /\ extract_user_credentials (PStr decoded)
         = Ret (PStr email, PStr pwd)
      /\ is_valid_password p pwd = true
      /\ In (IsValidPassword p pwd) (trace (current_user request)).
Proof.
  intros [r|] p H; [|discriminate].
  destruct (current_user_cases r)
    as [[Hn _] | (header & token & decoded & email & pwd
                  & Hh & H1 & H2 & H3)].
  { rewrite Hn in H. discriminate. }
  exists r, header, token, decoded, email, pwd.
  repeat (split; [assumption || reflexivity|]).
  rewrite (current_user_staged _ _ _ _ _ _ Hh H1 H2 H3) in H |- *.
  simpl in H.
  destruct (resolve_sound (PStr email) (PStr pwd)) as (o & Ho & Hs).
  rewrite Ho in H. injection H as ->.
  destruct (Hs p eq_refl) as (pwd' & [= <-] & Hv & Ht).
  split; [assumption|].
  unfold trace at 1. simpl fst. do 5 right. exact Ht.
Qed.


End WithStore.

(** The end-to-end example: Bob's request, with the right password. *)
Lemma current_user_checked_password_witness :
  exists r header token decoded email pwd,
    Some (Fixture.basic py:"bob@x.com:secret") = Some r
    /\ Fixture.getHeader r py:"Authorization" = Some header
    /\ extract_base64_authorization_header (PStr header)
       = Ret (PStr token)
    /\ decode_base64_authorization_header (PStr token)
       = Ret (PStr decoded)
    /\ extract_user_credentials (PStr decoded)
       = Ret (PStr email, PStr pwd)
    /\ Fixture.is_valid_password Fixture.bob pwd = true
    /\ In (IsValidPassword Fixture.bob pwd)
          (trace (current_user Fixture.getHeader Fixture.search
                    Fixture.is_valid_password
                    (Some (Fixture.basic py:"bob@x.com:secret")))).
Proof.
  apply (current_user_checked_password
           Fixture.getHeader Fixture.search Fixture.is_valid_password
           (Some (Fixture.basic py:"bob@x.com:secret")) Fixture.bob).
  vm_compute. reflexivity.
Defined.

End SchemeFacts.

(* ================================================================== *)
(** * Tokens: what stage 2 rejects, and the round trip *)
(* ================================================================== *)

Module TokenFacts.
Import BasicAuth StageFacts DecodeFacts RejectFacts Base64Facts Utf8Facts.

(** A base64 text has four characters to every three octets. *)
Lemma b64encode_length (b : pybytes) :
  (length (b64encode b) mod 4 = 0)%nat.
Proof.
  induction b as [|x|x y|x y z l IH] using list_ind3; try reflexivity.
  cbn [b64encode length].
  change (S (S (S (S (length (b64encode l))))))
    with (4 + length (b64encode l))%nat.
  rewrite <- Nat.Div0.add_mod_idemp_r, IH. reflexivity.
Qed.

(** C5, as the code has it.  [decode_base64_authorization_header]
    never raises, and returns none exactly when the token has a
    character outside ASCII, or its padding is insufficient, or the
    decoded octets are not valid UTF-8.  The padding is insufficient
    when, read left to right with every character that is neither a
    digit of the alphabet nor '=' skipped, the token ends inside a
    group of four digits that was not closed: one '=' closes a group
    of three digits, two '=' with no digit between them close a group
    of two, a group of one digit cannot be closed, and nothing after a
    closing '=' is read.  So a token whose '=' all come after its last
    digit is rejected for its padding exactly when its number n of
    digits has n mod 4 = 1, or n mod 4 = 2 with fewer than two '=', or
    n mod 4 = 3 with no '='. *)
Theorem decode_token_rejects :
  forall token : pystr,
    (exists r, decode_base64_authorization_header (PStr token) = Ret r)
    /\ (decode_base64_authorization_header (PStr token) = Ret PNone
        <-> Exists (fun c => ~ seven_bit c) token
            \/ (Forall seven_bit token /\ insufficient_padding token = true)
            \/ (exists b, b64decode token = Ret b
                          /\ raises (bytes_decode_utf8 b)))
    /\ (Forall seven_bit token ->
        (raises (b64decode token) <-> insufficient_padding token = true))
    /\ (forall body tail : pystr,
           token = body ++ tail ->
           ~ In BASE64_PAD body -> filter is_digit tail = [] ->
           (insufficient_padding token = true
            <-> digit_count body mod 4 = 1
                \/ (digit_count body mod 4 = 2 /\ pad_count tail < 2)
                \/ (digit_count body mod 4 = 3 /\ pad_count tail < 1))).
Proof.
  intros token. repeat match goal with |- _ /\ _ => split end.
  - destruct (decode_total (PStr token)) as [H|[t H]]; rewrite H;
      now eexists.
  - apply decode_none_iff.
  - apply b64decode_insufficient.
  - intros body tail -> Hb Ht. now apply insufficient_trailing.
Qed.

(** C5, as stated, fails: a token with a character outside the base64
    alphabet, and one with surplus padding, neither of them the base64
    encoding of anything, are decoded to a string. *)
Lemma decode_token_accepts_invalid_base64 :
  (In 33 py:"YWJj!" /\ is_digit 33 = false /\ 33 <> BASE64_PAD
   /\ ~ valid_base64 py:"YWJj!"
   /\ decode_base64_authorization_header (PStr py:"YWJj!")
      = Ret (PStr py:"abc"))
  /\ (~ valid_base64 py:"YWJj===="
      /\ decode_base64_authorization_header (PStr py:"YWJj====")
         = Ret (PStr py:"abc")).
Proof.
  split; [repeat split|split].
  - simpl. tauto.
  - discriminate.
  - intros (b & _ & H). pose proof (b64encode_length b) as L.
    rewrite <- H in L. discriminate.
  - intros (b & Hb & H).
    pose proof (b64decode_b64encode b Hb) as D. rewrite <- H in D.
    vm_compute in D. injection D as <-. vm_compute in H. discriminate.
  - reflexivity.
Qed.


(** C3. Round trip: for strings [user] and [pass] with no colon, the
    three parsing stages run on "Basic " followed by the base64
    encoding of the UTF-8 octets of [user], a colon and [pass] yield
    exactly the pair ([user], [pass]). *)
Theorem basic_header_roundtrip :
  forall (user pass : pystr) (octets : pybytes),
    contains 58 user = false ->
    contains 58 pass = false ->
    str_encode_utf8 (user ++ py:":" ++ pass) = Ret octets ->
    parse_header (py:"Basic " ++ b64encode octets)
    = Ret (PStr user, PStr pass).
Proof.
  intros user pass octets Hu _ He. unfold parse_header.
  rewrite extract_prefixed. cbn [rbind].
  rewrite (decode_ok _ octets (user ++ py:":" ++ pass)).
  - cbn [rbind]. now apply split_colon.
  - apply b64decode_b64encode. now apply (utf8_octets _ _ He).
  - now apply utf8_roundtrip.
Qed.

Lemma basic_header_roundtrip_witness :
  parse_header (py:"Basic " ++ b64encode py:"bob@x.com:secret")
  = Ret (PStr py:"bob@x.com", PStr py:"secret").
Proof.
  apply (basic_header_roundtrip py:"bob@x.com" py:"secret"
           py:"bob@x.com:secret"); reflexivity.
Defined.

End TokenFacts.

(* ================================================================== *)
(** * [filter_datum]: the pattern, parsed and matched *)
(* ================================================================== *)

Module ReFacts.
Import Re FilteredLogger DatumPattern.

Lemma plain_inv (c : Z) :
  plain c = true ->
  (c =? ch "|") = false /\ (c =? ch ")") = false /\ (c =? ch "\") = false.
Proof.
  unfold plain, contains, SPECIAL_CHARS. cbn. intros H.
  repeat split; apply Z.eqb_neq; lia.
Qed.

Lemma parse_items_plain (fuel : nat) (acc : list regex) (c : Z) (s : pystr)
      (g : nat) :
  plain c = true ->
  parse_items (S fuel) acc (c :: s) g = parse_items fuel (Lit c :: acc) s g.
Proof.
  intros H. destruct (plain_inv c H) as (H1 & H2 & H3).
  cbn [parse_items]. now rewrite H1, H2, H3, H.
Qed.

(** A run of plain characters up to a '|' or a ')' is read as that many
    literals. *)
Lemma parse_items_lits (f : pystr) :
  forallb plain f = true ->
  forall fuel acc stop rest g,
    stop = ch "|" \/ stop = ch ")" ->
    (length f < fuel)%nat ->
    parse_items fuel acc (f ++ stop :: rest) g
    = Parsed (rev (map Lit f) ++ acc, stop :: rest, g).
Proof.
  induction f as [|c f IH]; intros Hf fuel acc stop rest g Hstop Hfuel.
  - destruct fuel as [|fuel]; [simpl in Hfuel; lia|].
    cbn [app parse_items map rev].
    destruct Hstop as [-> | ->]; reflexivity.
  - destruct fuel as [|fuel]; [simpl in Hfuel; lia|].
    cbn [forallb] in Hf. apply andb_true_iff in Hf as [Hc Hf].
    cbn [app]. rewrite parse_items_plain by assumption.
    rewrite IH by (assumption || (simpl in Hfuel; lia)).
    cbn [map rev]. now rewrite <- app_assoc.
Qed.

Lemma seq_of_lits (f : pystr) : seq_of (rev (rev (map Lit f) ++ [])) = lits f.
Proof. now rewrite app_nil_r, rev_involutive. Qed.

(** The alternatives of plain field names, up to the ')' that closes the
    group. *)
Lemma parse_alt_fields (fields : list pystr) :
  fields <> [] ->
  all_plain fields = true ->
  forall fuel rest g,
    (length (join py:"|" fields) + 1 < fuel)%nat ->
    parse_alt fuel (join py:"|" fields ++ ch ")" :: rest) g
    = Parsed (alts fields, ch ")" :: rest, g).
Proof.
  induction fields as [|f fields IH]; [congruence|].
  intros _ Hp fuel rest g Hfuel.
  cbn [all_plain forallb] in Hp. apply andb_true_iff in Hp as [Hf Hp].
  destruct fuel as [|fuel]; [lia|].
  destruct fields as [|f' fields].
  - cbn [join] in *. cbn [parse_alt].
    rewrite parse_items_lits by (auto; lia).
    rewrite seq_of_lits. reflexivity.
  - change (join py:"|" (f :: f' :: fields))
      with (f ++ [ch "|"] ++ join py:"|" (f' :: fields)) in *.
    rewrite length_app in Hfuel. cbn [length app] in Hfuel.
    cbn [parse_alt].
    rewrite <- !app_assoc. cbn [app].
    rewrite parse_items_lits by (auto; lia).
    rewrite seq_of_lits. rewrite Z.eqb_refl.
    rewrite IH by (congruence || assumption || (cbn [length] in *; lia)).
    reflexivity.
Qed.

(** The head of the joined names is not the '?' of an extension group. *)
Lemma join_head (fields : list pystr) (c : Z) (s : pystr) :
  all_plain fields = true ->
  join py:"|" fields = c :: s -> (c =? ch "?") = false.
Proof.
  intros Hp Hj.
  assert (plain c = true \/ c = ch "|") as Hc.
  { destruct fields as [|f fields]; [discriminate|].
    cbn [all_plain forallb] in Hp. apply andb_true_iff in Hp as [Hf _].
    destruct f as [|d f].
    - right. destruct fields; [discriminate|].
      cbn in Hj. now injection Hj as <- _.
    - left. cbn [forallb] in Hf. apply andb_true_iff in Hf as [Hd _].
      destruct fields; cbn in Hj; now injection Hj as <- _. }
  destruct Hc as [H | ->]; [|reflexivity].
  destruct (Z.eqb_spec c (ch "?")) as [->|]; [discriminate | reflexivity].
Qed.

Lemma parse_alt_unfold (fuel : nat) (s : pystr) (g : nat) :
  parse_alt (S fuel) s g
  = match parse_items fuel [] s g with
    | Parsed (items, rest, g') =>
        let r := seq_of (rev items) in
        match rest with
        | d :: rest' =>
            if d =? ch "|" then
              match parse_alt fuel rest' g' with
              | Parsed (r2, rest2, g2) => Parsed (Alt r r2, rest2, g2)
              | BadPattern => BadPattern
              | Unsupported => Unsupported
              end
            else Parsed (r, rest, g')
        | [] => Parsed (r, rest, g')
        end
    | BadPattern => BadPattern
    | Unsupported => Unsupported
    end.
Proof. reflexivity. Qed.

(** An opening parenthesis that does not start an extension. *)
Lemma parse_items_group (fuel : nat) (acc : list regex) (d : Z) (s : pystr)
      (g : nat) :
  (d =? ch "?") = false ->
  parse_items (S fuel) acc (ch "(" :: d :: s) g
  = match parse_alt fuel (d :: s) (S g) with
    | Parsed (r, rest, g') =>
        match rest with
        | d' :: rest' =>
            if d' =? ch ")" then
              parse_items fuel (Group (S g) r :: acc) rest' g'
            else BadPattern
        | [] => BadPattern
        end
    | BadPattern => BadPattern
    | Unsupported => Unsupported
    end.
Proof.
  intros H.
  transitivity
    (if d =? ch "?" then Unsupported
     else match parse_alt fuel (d :: s) (S g) with
          | Parsed (r, rest, g') =>
              match rest with
              | d' :: rest' =>
                  if d' =? ch ")" then
                    parse_items fuel (Group (S g) r :: acc) rest' g'
                  else BadPattern
              | [] => BadPattern
              end
          | BadPattern => BadPattern
          | Unsupported => Unsupported
          end); [reflexivity | now rewrite H].
Qed.

(** A negated set. *)
Lemma parse_items_negated_set (fuel : nat) (acc : list regex) (s : pystr)
      (g : nat) :
  parse_items (S fuel) acc (ch "[" :: ch "^" :: s) g
  = match parse_set s [] with
    | Parsed (items, rest) =>
        parse_items fuel (InSet true items :: acc) rest g
    | BadPattern => BadPattern
    | Unsupported => Unsupported
    end.
Proof. reflexivity. Qed.

(** A set of one character that is not a backslash. *)
Lemma parse_set_single (c : Z) (rest : pystr) :
  c <> ch "\" ->
  parse_set (c :: ch "]" :: rest) [] = Parsed ([c], rest).
Proof.
  intros H. cbn [parse_set length app Nat.eqb negb].
  rewrite andb_false_r, (proj2 (Z.eqb_neq _ _) H). reflexivity.
Qed.

(** A final '+' after a set. *)
Lemma parse_items_plus_set (fuel : nat) (acc : list regex) (negate : bool)
      (items : list Z) (g : nat) :
  parse_items (S (S fuel)) (InSet negate items :: acc) [ch "+"] g
  = Parsed (Plus (InSet negate items) :: acc, [], g).
Proof. reflexivity. Qed.

Lemma parse_alt_datum (fields : list pystr) (sep : Z) (fuel : nat) :
  fields <> [] -> all_plain fields = true -> sep <> ch "\" ->
  (length (join py:"|" fields) + 7 < fuel)%nat ->
  parse_alt fuel (datum_pattern fields [sep]) 0
  = Parsed (datum_regex fields sep, [], 1%nat).
Proof.
  intros Hne Hp Hsep Hfuel. unfold datum_pattern.
  do 7 (destruct fuel as [|fuel]; [lia|]).
  change (py:"(" ++ join py:"|" fields ++ py:")=[^" ++ [sep] ++ py:"]+")
    with (ch "(" :: (join py:"|" fields
                     ++ ch ")" :: ch "=" :: ch "[" :: ch "^" :: sep
                        :: ch "]" :: ch "+" :: [])).
  rewrite parse_alt_unfold.
  assert (parse_items (S (S (S (S (S (S fuel)))))) []
            (ch "(" :: (join py:"|" fields
                        ++ ch ")" :: ch "=" :: ch "[" :: ch "^" :: sep
                           :: ch "]" :: ch "+" :: [])) 0
          = Parsed ([Plus (InSet true [sep]); Lit 61; Group 1 (alts fields)],
                    [], 1%nat)) as ->; [|reflexivity].
  assert (exists d s,
             join py:"|" fields
             ++ ch ")" :: ch "=" :: ch "[" :: ch "^" :: sep
                :: ch "]" :: ch "+" :: [] = d :: s
             /\ (d =? ch "?") = false) as (d & s & Hds & Hd).
  { destruct (join py:"|" fields) as [|c s] eqn:Hj.
    - now eexists _, _.
    - exists c. eexists. split; [reflexivity|].
      now apply (join_head fields c s). }
  rewrite Hds, (parse_items_group _ _ _ _ _ Hd), <- Hds.
  rewrite parse_alt_fields by (assumption || lia).
  rewrite Z.eqb_refl.
  rewrite parse_items_plain by reflexivity.
  rewrite parse_items_negated_set, parse_set_single by assumption.
  now rewrite parse_items_plus_set.
Qed.

Lemma parse_datum (fields : list pystr) (sep : Z) :
  fields <> [] -> all_plain fields = true -> sep <> ch "\" ->
  parse (datum_pattern fields [sep]) = Parsed (datum_regex fields sep).
Proof.
  intros Hne Hp Hsep. unfold parse.
  rewrite parse_alt_datum; try assumption; [reflexivity|].
  unfold datum_pattern. rewrite !length_app. cbn [length]. 
  change (length py:"(") with 1%nat. change (length py:")=[^") with 4%nat.
  change (length py:"]+") with 2%nat. lia.
Qed.

(** ** Matching the parsed pattern *)

Lemma startswith_nil (s : pystr) : startswith s [] = true.
Proof. reflexivity. Qed.

Lemma startswith_app_same (f s p : pystr) :
  startswith (f ++ s) (f ++ p) = startswith s p.
Proof.
  induction f as [|c f IH]; [reflexivity|].
  cbn [app startswith]. now rewrite Z.eqb_refl, IH.
Qed.

Lemma startswith_app_prefix (s f p : pystr) :
  startswith s f = false -> startswith s (f ++ p) = false.
Proof.
  revert s; induction f as [|c f IH]; intros s H; [discriminate|].
  destruct s as [|x s]; [reflexivity|].
  cbn [app startswith] in *.
  destruct (x =? c); [now apply IH | reflexivity].
Qed.

Lemma mtch_lits (f : pystr) :
  forall s c k,
    mtch (lits f) s c k
    = if startswith s f then k (skipn (length f) s) c else None.
Proof.
  induction f as [|a f IH]; intros s c k; [reflexivity|].
  change (lits (a :: f)) with (Cat (Lit a) (lits f)).
  cbn [mtch]. destruct s as [|x s]; [reflexivity|].
  cbn [startswith length skipn].
  destruct (x =? a); [apply IH | reflexivity].
Qed.

Lemma mtch_alts (fields : list pystr) :
  fields <> [] ->
  forall s c k, mtch (alts fields) s c k = try_fields fields s c k.
Proof.
  induction fields as [|f fields IH]; [congruence|].
  intros _ s c k. destruct fields as [|f' fields].
  - cbn [alts try_fields]. rewrite mtch_lits.
    now destruct (if startswith s f then _ else _).
  - change (alts (f :: f' :: fields))
      with (Alt (lits f) (alts (f' :: fields))).
    cbn [mtch try_fields]. rewrite mtch_lits, IH by congruence.
    reflexivity.
Qed.

Lemma run_length (sep : Z) (s : pystr) : (length (run sep s) <= length s)%nat.
Proof.
  induction s as [|x s IH]; cbn [run length]; [lia|].
  destruct (x =? sep); cbn [length]; lia.
Qed.

(** Greedy repetition of "any character but the separator" takes the
    whole run, when what follows accepts that. *)
Lemma repeat_max_run (sep : Z) (k : cont) :
  forall n s c m,
    (length s <= n)%nat ->
    k (skipn (length (run sep s)) s) c = Some m ->
    repeat_max (mtch (InSet true [sep])) n s c k = Some m.
Proof.
  set (step := mtch (InSet true [sep])).
  induction n as [|n IH]; intros s c m Hn Hk.
  - destruct s; [exact Hk | cbn [length] in Hn; lia].
  - cbn [repeat_max]. unfold step at 1. cbn [mtch].
    destruct s as [|x s]; [exact Hk|].
    cbn [run] in Hk. cbn [contains existsb]. rewrite orb_false_r.
    destruct (x =? sep); cbn [xorb negb]; [exact Hk|].
    cbn [length skipn] in Hk.
    rewrite (proj2 (Nat.ltb_lt (length s) (length (x :: s))))
      by (cbn [length]; lia).
    rewrite (IH s c m) by (assumption || (cbn [length] in Hn; lia)).
    reflexivity.
Qed.

Lemma mtch_plus_run (sep : Z) (s : pystr) (c : caps) (k : cont) :
  mtch (Plus (InSet true [sep])) s c k
  = match run sep s with
    | [] => None
    | (_ :: _) as value =>
        match k (skipn (length value) s) c with
        | Some m => Some m
        | None => mtch (Plus (InSet true [sep])) s c k
        end
    end.
Proof.
  destruct s as [|x s]; [reflexivity|].
  cbn [run]. destruct (x =? sep) eqn:E.
  - cbn [mtch contains existsb]. now rewrite E.
  - destruct (k (skipn (length (x :: run sep s)) (x :: s)) c) as [m|] eqn:Hk;
      [|reflexivity].
    cbn [mtch contains existsb]. rewrite E. cbn [orb xorb negb].
    rewrite (proj2 (Nat.ltb_lt (length s) (length (x :: s))))
      by (cbn [length]; lia).
    now apply repeat_max_run.
Qed.

Lemma skipn_length_le (n : nat) (s : pystr) :
  (length (skipn n s) <= length s)%nat.
Proof. rewrite length_skipn. lia. Qed.

Lemma occurrence_shorter (sep : Z) (f s rest : pystr) :
  occurrence sep f s = Some rest -> (length rest < length s)%nat.
Proof.
  unfold occurrence.
  destruct (startswith s (f ++ py:"=")) eqn:E; [|discriminate].
  apply startswith_inv in E.
  destruct (run sep (skipn (length f + 1) s)) as [|v value] eqn:R;
    [discriminate|].
  intros H.
  assert (rest = skipn (length (v :: value)) (skipn (length f + 1) s))
    as -> by congruence.
  clear H. rewrite !length_skipn.
  assert (length s = length (f ++ py:"=") + length (skipn (length (f ++ py:"=")) s))%nat
    as L by (rewrite <- length_app; now rewrite <- E).
  rewrite length_app in L. cbn [length] in *.
  change (length py:"=") with 1%nat in L. lia.
Qed.

Lemma occurrence_app (sep : Z) (f s1 : pystr) :
  occurrence sep f (f ++ s1) = value_here sep s1.
Proof.
  unfold occurrence. rewrite startswith_app_same.
  change (py:"=") with [61].
  destruct s1 as [|x after]; [reflexivity|].
  cbn [startswith value_here]. rewrite andb_true_r.
  destruct (x =? 61); [|reflexivity].
  replace (skipn (length f + 1) (f ++ x :: after)) with after; [reflexivity|].
  replace (length f + 1)%nat with (length (f ++ [x]))
    by (rewrite length_app; reflexivity).
  replace (f ++ x :: after) with ((f ++ [x]) ++ after)
    by (now rewrite <- app_assoc).
  now rewrite skipn_length_app.
Qed.

Lemma occurrence_no_prefix (sep : Z) (f s : pystr) :
  startswith s f = false -> occurrence sep f s = None.
Proof.
  intros H. unfold occurrence. now rewrite startswith_app_prefix.
Qed.

(** The pattern after the group, after the field name [f]. *)
Lemma value_tail (sep : Z) (f s1 : pystr) (must_advance : bool) :
  mtch (Cat (Lit 61) (Cat (Plus (InSet true [sep])) Eps)) s1
       [(1%nat, f)] (accept (f ++ s1) must_advance)
  = match value_here sep s1 with
    | Some rest => Some ([(1%nat, f)], rest)
    | None => None
    end.
Proof.
  destruct s1 as [|x after]; [reflexivity|].
  set (value := Plus (InSet true [sep])).
  cbn [mtch value_here]. destruct (x =? 61); [|reflexivity].
  subst value. rewrite mtch_plus_run.
  destruct (run sep after) as [|v value]; [reflexivity|].
  unfold accept at 1.
  rewrite (proj2 (Nat.eqb_neq _ _)).
  - now rewrite andb_false_r.
  - rewrite length_skipn, length_app. cbn [length]. lia.
Qed.

(** One field name at the head of [s], through the rest of the pattern. *)
Lemma field_here (sep : Z) (f s : pystr) (must_advance : bool) :
  (if startswith s f then
     mtch (Cat (Lit 61) (Cat (Plus (InSet true [sep])) Eps))
          (skipn (length f) s)
          [(1%nat, firstn (length s - length (skipn (length f) s)) s)]
          (accept s must_advance)
   else None)
  = match occurrence sep f s with
    | Some rest => Some ([(1%nat, f)], rest)
    | None => None
    end.
Proof.
  destruct (startswith s f) eqn:Ef.
  - apply startswith_inv in Ef.
    remember (skipn (length f) s) as s1 eqn:Hs1. clear Hs1. subst s.
    rewrite occurrence_app, length_app.
    replace (length f + length s1 - length s1)%nat with (length f) by lia.
    rewrite firstn_length_app. apply value_tail.
  - now rewrite occurrence_no_prefix.
Qed.

Lemma mtch_cat (r1 r2 : regex) (s : pystr) (c : caps) (k : cont) :
  mtch (Cat r1 r2) s c k = mtch r1 s c (fun s' c' => mtch r2 s' c' k).
Proof. reflexivity. Qed.

Lemma mtch_group (n : nat) (r : regex) (s : pystr) (c : caps) (k : cont) :
  mtch (Group n r) s c k
  = mtch r s c (fun s' c' =>
      k s' ((n, firstn (length s - length s') s) :: c')).
Proof. reflexivity. Qed.

(** A match of the whole pattern at the head of [s] is an occurrence of
    the first listed field that has one there. *)
Lemma match_here_datum (fields : list pystr) (sep : Z) (s : pystr)
      (must_advance : bool) :
  fields <> [] ->
  match_here (datum_regex fields sep) s must_advance
  = match first_occurrence sep fields s with
    | Some (f, rest) => Some ([(1%nat, f)], rest)
    | None => None
    end.
Proof.
  intros Hne. unfold match_here, datum_regex.
  fold (accept s must_advance).
  rewrite mtch_cat, mtch_group, mtch_alts by assumption. clear Hne.
  induction fields as [|f fields IH]; [reflexivity|].
  cbn [try_fields first_occurrence]. cbv beta.
  match goal with
  | |- match ?X with Some _ => _ | None => _ end = _ =>
      replace X with (match occurrence sep f s with
                      | Some rest => Some ([(1%nat, f)], rest)
                      | None => None
                      end)
        by (symmetry; apply field_here)
  end.
  destruct (occurrence sep f s); [reflexivity | exact IH].
Qed.

Lemma first_occurrence_shorter (sep : Z) (fields : list pystr)
      (s f rest : pystr) :
  first_occurrence sep fields s = Some (f, rest) ->
  (length rest < length s)%nat.
Proof.
  induction fields as [|f' fields IH]; [discriminate|].
  cbn [first_occurrence].
  destruct (occurrence sep f' s) as [r|] eqn:O; [|exact IH].
  intros H. assert (r = rest) as -> by congruence.
  now apply (occurrence_shorter sep f').
Qed.

Lemma first_occurrence_nil (sep : Z) (fields : list pystr) :
  first_occurrence sep fields [] = None.
Proof.
  induction fields as [|f fields IH]; [reflexivity|].
  cbn [first_occurrence]. rewrite <- (app_nil_r f) at 1.
  rewrite <- IH. destruct f; reflexivity.
Qed.

(** ** Searching and substituting *)

Section Datum.

Variable fields : list pystr.
Variable sep : Z.
Variable redaction : pystr.
Hypothesis fields_not_empty : fields <> [].

Let R := datum_regex fields sep.
Let repl : caps -> pystr := fun m => group m 1 ++ py:"=" ++ redaction.

Lemma search_hit (s f rest : pystr) (must_advance : bool) :
  first_occurrence sep fields s = Some (f, rest) ->
  search R s must_advance = Some ([], [(1%nat, f)], rest).
Proof.
  intros H. destruct s as [|x s]; cbn [search]; unfold R;
    rewrite match_here_datum, H by assumption; reflexivity.
Qed.

Lemma search_miss (x : Z) (s : pystr) (must_advance : bool) :
  first_occurrence sep fields (x :: s) = None ->
  search R (x :: s) must_advance
  = match search R s false with
    | Some (skipped, c, rest) => Some (x :: skipped, c, rest)
    | None => None
    end.
Proof.
  intros H. cbn [search]. unfold R at 1.
  now rewrite match_here_datum, H by assumption.
Qed.

Lemma search_nil (must_advance : bool) : search R [] must_advance = None.
Proof.
  cbn [search]. unfold R.
  now rewrite match_here_datum, first_occurrence_nil by assumption.
Qed.

Lemma sub_loop_hit (fuel : nat) (s f rest : pystr) (must_advance : bool) :
  first_occurrence sep fields s = Some (f, rest) ->
  sub_loop (S fuel) R repl s must_advance
  = f ++ py:"=" ++ redaction ++ sub_loop fuel R repl rest false.
Proof.
  intros H. cbn [sub_loop]. rewrite (search_hit _ _ _ _ H).
  pose proof (first_occurrence_shorter _ _ _ _ _ H) as Hlt.
  cbn [app length]. rewrite (proj2 (Nat.eqb_neq _ _)) by lia.
  unfold repl at 1. cbn [group List.find fst Nat.eqb].
  now rewrite <- !app_assoc.
Qed.

Lemma sub_loop_miss (fuel : nat) (x : Z) (s : pystr) (must_advance : bool) :
  first_occurrence sep fields (x :: s) = None ->
  sub_loop (S fuel) R repl (x :: s) must_advance
  = x :: sub_loop (S fuel) R repl s false.
Proof.
  intros H. cbn [sub_loop]. rewrite (search_miss _ _ _ H).
  destruct (search R s false) as [[[skipped c] rest]|]; reflexivity.
Qed.

Lemma sub_loop_nil (fuel : nat) (must_advance : bool) :
  sub_loop fuel R repl [] must_advance = [].
Proof.
  destruct fuel; [reflexivity|]. cbn [sub_loop]. now rewrite search_nil.
Qed.

(** With enough fuel on both sides, substitution with the parsed
    pattern is the redaction. *)
Lemma sub_loop_redact (n : nat) :
  forall s fuel k must_advance,
    (length s <= n)%nat -> (length s < fuel)%nat -> (length s <= k)%nat ->
    sub_loop fuel R repl s must_advance
    = redact_loop k fields redaction sep s.
Proof.
  induction n as [|n IH]; intros s fuel k ma Hn Hfuel Hk.
  - destruct s; [|cbn [length] in Hn; lia].
    rewrite sub_loop_nil. destruct k; [reflexivity|].
    cbn [redact_loop]. now rewrite first_occurrence_nil.
  - destruct s as [|x s].
    { rewrite sub_loop_nil. destruct k; [reflexivity|].
      cbn [redact_loop]. now rewrite first_occurrence_nil. }
    destruct fuel as [|fuel]; [lia|].
    destruct k as [|k]; [cbn [length] in Hk; lia|].
    cbn [redact_loop].
    destruct (first_occurrence sep fields (x :: s)) as [[f rest]|] eqn:O.
    + rewrite (sub_loop_hit _ _ _ _ _ O).
      pose proof (first_occurrence_shorter _ _ _ _ _ O) as Hlt.
      rewrite (IH rest fuel k false) by lia. reflexivity.
    + rewrite (sub_loop_miss _ _ _ _ O).
      cbn [length] in *.
      rewrite (IH s (S fuel) k false) by lia. reflexivity.
Qed.

End Datum.

End ReFacts.

(* ================================================================== *)
(** * [filter_datum] against the redaction in plain terms *)
(* ================================================================== *)

Module LoggerFacts.
Import Re FilteredLogger DatumPattern ReFacts.

(** C10, as the code has it. For a list of at least one field name, the
    names made of characters that stand for themselves in a pattern, and a
    one-character separator other than the backslash, [filter_datum]
    returns the redaction of the message: left to right, each occurrence
    of the first listed field name that is followed by '=' and a
    non-empty run of characters up to the separator is replaced by the
    name, '=' and the redaction string, reading resumes after the run,
    and every other character is kept. *)
Theorem filter_datum_redacts :
  forall (field : pystr) (others : list pystr)
         (redaction message : pystr) (sep : Z),
    all_plain (field :: others) = true ->
    sep <> ch "\" ->
    filter_datum (field :: others) redaction message [sep]
    = Known (Ret (redact (field :: others) redaction message sep)).
Proof.
  intros field others redaction message sep Hp Hsep.
  unfold filter_datum, sub.
  rewrite parse_datum by (congruence || assumption).
  unfold redact. do 2 f_equal.
  apply (sub_loop_redact (field :: others) sep redaction
           ltac:(congruence) (length message)); lia.
Qed.

Lemma filter_datum_redacts_witness :
  filter_datum [py:"password"; py:"date_of_birth"] py:"xxx"
    py:"name=egg;password=eggcellent;date_of_birth=12/12/1986;" py:";"
  = Known (Ret (redact [py:"password"; py:"date_of_birth"] py:"xxx"
                  py:"name=egg;password=eggcellent;date_of_birth=12/12/1986;"
                  59)).
Proof.
  apply (filter_datum_redacts py:"password" [py:"date_of_birth"] py:"xxx"
           py:"name=egg;password=eggcellent;date_of_birth=12/12/1986;" 59).
  - reflexivity.
  - unfold ch. simpl. lia.
Defined.

(** C10, as stated, fails in three ways: with no field listed the
    function still rewrites a value; a field name is read as a pattern,
    so a name with a '.' also redacts the value of another key; and a
    backslash as the separator makes the pattern ill-formed, so that the
    call raises [re.error]. *)
Lemma filter_datum_is_a_pattern :
  (filter_datum [] py:"xxx" py:"a=b;" py:";" = Known (Ret py:"a=xxx;")
   /\ redact [] py:"xxx" py:"a=b;" 59 = py:"a=b;")
  /\ (filter_datum [py:"a.c"] py:"xxx" py:"abc=1;a.c=2;" py:";"
      = Known (Ret py:"abc=xxx;a.c=xxx;")
      /\ redact [py:"a.c"] py:"xxx" py:"abc=1;a.c=2;" 59
         = py:"abc=1;a.c=xxx;")
  /\ filter_datum [py:"a"] py:"xxx" py:"a=1;" py:"\"
     = Known (Raise ReError).
Proof. repeat split; reflexivity. Qed.

End LoggerFacts.

(* ================================================================== *)
(** * [base64]: what the decoder skips *)
(* ================================================================== *)

Module TokenLeniency.
Import BasicAuth Base64Facts Utf8Facts StageFacts DecodeFacts.

Lemma a2b_loop_skip (c : Z) (rest : pybytes) (q l p : Z) (out : pybytes) :
  significant c = false ->
  a2b_loop (c :: rest) q l p out = a2b_loop rest q l p out.
Proof.
  unfold significant, is_digit. intros H.
  apply orb_false_iff in H as [Hd Hp].
  cbn [a2b_loop]. rewrite Hp.
  apply Z.ltb_ge in Hd. now rewrite (proj2 (Z.leb_le _ _) Hd).
Qed.

(** The loop does not see the characters that are neither digit nor pad. *)
Lemma a2b_loop_filter (data : pybytes) :
  forall q l p out,
    a2b_loop (filter significant data) q l p out = a2b_loop data q l p out.
Proof.
  induction data as [|c data IH]; intros q l p out; [reflexivity|].
  cbn [filter]. destruct (significant c) eqn:E.
  - cbn [a2b_loop]. now rewrite !IH.
  - now rewrite a2b_loop_skip.
Qed.

Lemma seven_bit_filter (f : Z -> bool) (s : pystr) :
  Forall seven_bit s -> Forall seven_bit (filter f s).
Proof.
  rewrite !Forall_forall. intros H x Hx.
  apply filter_In in Hx as [Hx _]. now apply H.
Qed.

Lemma b64decode_filter (s : pystr) :
  Forall seven_bit s ->
  b64decode (filter significant s) = b64decode s.
Proof.
  intros H. unfold b64decode, bytes_from_decode_data.
  rewrite !str_encode_ascii_id by (assumption || now apply seven_bit_filter).
  cbn [rcatch rbind]. unfold a2b_base64. apply a2b_loop_filter.
Qed.

Lemma a2b_pad_pad_tail (l : Z) (tail out : pybytes) :
  a2b_loop (BASE64_PAD :: BASE64_PAD :: tail) 2 l 0 out = Ret out.
Proof. reflexivity. Qed.

Lemma a2b_pad_tail (l : Z) (tail out : pybytes) :
  a2b_loop (BASE64_PAD :: tail) 3 l 0 out = Ret out.
Proof. reflexivity. Qed.

Lemma a2b_one_tail (x : Z) (tail out : pybytes) :
  0 <= x < 256 ->
  a2b_loop (b64encode [x] ++ tail) 0 0 0 out = Ret (out ++ [x]).
Proof.
  intros Hx. cbn [b64encode app].
  rewrite a2b_digit by bits. simpl (0 =? 0). cbv iota.
  rewrite a2b_digit by bits. simpl (1 =? 0). simpl (1 =? 1). cbv iota.
  rewrite a2b_pad_pad_tail. unfold u8. do 3 f_equal. bits.
Qed.

Lemma a2b_two_tail (x y : Z) (tail out : pybytes) :
  0 <= x < 256 -> 0 <= y < 256 ->
  a2b_loop (b64encode [x; y] ++ tail) 0 0 0 out = Ret (out ++ [x; y]).
Proof.
  intros Hx Hy. cbn [b64encode app].
  rewrite a2b_digit by bits. simpl (0 =? 0). cbv iota.
  rewrite a2b_digit by bits. simpl (1 =? 0). simpl (1 =? 1). cbv iota.
  rewrite a2b_digit by bits.
  simpl (2 =? 0). simpl (2 =? 1). simpl (2 =? 2). cbv iota.
  rewrite a2b_pad_tail. rewrite <- !app_assoc. cbn [app]. unfold u8.
  do 2 f_equal. f_equal; [|f_equal]; bits.
Qed.

(** Once the padding has closed the last group, the loop returns without
    reading further. *)
Lemma a2b_loop_encode_tail (b : pybytes) :
  Forall octet b -> (length b mod 3 <> 0)%nat ->
  forall tail out, a2b_loop (b64encode b ++ tail) 0 0 0 out = Ret (out ++ b).
Proof.
  induction b as [|x|x y|x y z l IH] using list_ind3; intros Hb Hlen tail out.
  - now elim Hlen.
  - apply octet_inv in Hb as [Hx _]. now apply a2b_one_tail.
  - apply octet_inv in Hb as [Hx Hb]. apply octet_inv in Hb as [Hy _].
    now apply a2b_two_tail.
  - apply octet_inv in Hb as [Hx Hb]. apply octet_inv in Hb as [Hy Hb].
    apply octet_inv in Hb as [Hz Hb].
    cbn [b64encode app]. rewrite a2b_three by assumption.
    rewrite IH; [now rewrite <- app_assoc | assumption |].
    cbn [length] in Hlen.
    change (S (S (S (length l)))) with (3 + length l)%nat in Hlen.
    intros E. apply Hlen.
    rewrite <- Nat.Div0.add_mod_idemp_r, E. reflexivity.
Qed.

Lemma b64decode_trailing (b : pybytes) (junk : pystr) :
  Forall octet b -> (length b mod 3 <> 0)%nat -> Forall seven_bit junk ->
  b64decode (b64encode b ++ junk) = Ret b.
Proof.
  intros Hb Hlen Hj. unfold b64decode, bytes_from_decode_data.
  rewrite str_encode_ascii_id
    by (apply Forall_app; split; [now apply b64encode_ascii | assumption]).
  cbn [rcatch rbind]. unfold a2b_base64.
  now rewrite a2b_loop_encode_tail.
Qed.

Lemma u8_octet (x : Z) : octet (u8 x).
Proof.
  unfold octet, u8. rewrite Bits.land_255. apply Z.mod_pos_bound. lia.
Qed.

(** What the loop writes are octets. *)
Lemma a2b_loop_octets (data : pybytes) :
  forall q l p out r,
    Forall octet out ->
    a2b_loop data q l p out = Ret r -> Forall octet r.
Proof.
  induction data as [|c data IH]; intros q l p out r Hout H.
  - cbn [a2b_loop] in H. destruct (q =? 0); [|discriminate].
    now apply ret_inj in H; subst.
  - cbn [a2b_loop] in H.
    assert (forall x, Forall octet (out ++ [u8 x])) as Hx
        by (intros x; apply Forall_app; split;
            [assumption | repeat constructor; apply u8_octet]).
    repeat match type of H with
           | (if ?b then _ else _) = _ => destruct b
           end;
      try (apply ret_inj in H; now subst);
      eapply IH; try exact H; auto.
Qed.

Lemma b64decode_octets (s : pystr) (b : pybytes) :
  b64decode s = Ret b -> Forall octet b.
Proof.
  unfold b64decode, bytes_from_decode_data.
  destruct (str_encode_ascii s) as [data|]; [|discriminate].
  cbn [rcatch rbind]. unfold a2b_base64.
  apply a2b_loop_octets. constructor.
Qed.

End TokenLeniency.

(* ================================================================== *)
(** * UTF-8: encoding undoes decoding *)
(* ================================================================== *)

Module Utf8Strict.
Import BasicAuth Base64Facts Utf8Facts StageFacts DecodeFacts.

Lemma encode_1 (b0 : Z) :
  0 <= b0 < 0x80 -> utf8_encode_char b0 = Ret [b0] /\ scalar b0.
Proof.
  intros H. unfold utf8_encode_char, scalar. tests. split; [reflexivity | lia].
Qed.

Lemma encode_2 (b0 b1 : Z) :
  0xC2 <= b0 < 0xE0 -> 0x80 <= b1 < 0xC0 ->
  utf8_encode_char (b0 * 64 + b1 - 12416) = Ret [b0; b1]
  /\ scalar (b0 * 64 + b1 - 12416).
Proof.
  intros H0 H1. set (ch := b0 * 64 + b1 - 12416).
  assert (0x80 <= ch < 0x800) as Hch by (unfold ch; lia).
  unfold utf8_encode_char, scalar. tests.
  rewrite trail, (lead 0xC0 (Z.shiftr ch 6) 6) by (try reflexivity; arith).
  rewrite Z.shiftr_div_pow2 by lia. change (2 ^ 6) with 64.
  split; [|lia]. unfold ch. do 2 f_equal; [|f_equal];
    Z.div_mod_to_equations; lia.
Qed.

Lemma encode_3 (b0 b1 b2 : Z) :
  0xE0 <= b0 < 0xF0 -> 0x80 <= b1 < 0xC0 -> 0x80 <= b2 < 0xC0 ->
  (b0 = 0xE0 -> 0xA0 <= b1) -> (b0 = 0xED -> b1 < 0xA0) ->
  utf8_encode_char (b0 * 4096 + b1 * 64 + b2 - 925824) = Ret [b0; b1; b2]
  /\ scalar (b0 * 4096 + b1 * 64 + b2 - 925824).
Proof.
  intros H0 H1 H2 Hlo Hhi. set (ch := b0 * 4096 + b1 * 64 + b2 - 925824).
  assert (0x800 <= ch < 0x10000) as Hch by (unfold ch; lia).
  assert (~ (0xD800 <= ch <= 0xDFFF)) as Hs by (unfold ch; lia).
  unfold utf8_encode_char, scalar. tests.
  all: rewrite !trail, (lead 0xE0 (Z.shiftr ch 12) 5)
    by (try reflexivity; arith).
  all: rewrite !Z.shiftr_div_pow2 by lia.
  all: change (2 ^ 6) with 64; change (2 ^ 12) with 4096.
  all: split; [|lia]; unfold ch; do 2 f_equal; [|f_equal; [|f_equal]];
    Z.div_mod_to_equations; lia.
Qed.

Lemma encode_4 (b0 b1 b2 b3 : Z) :
  0xF0 <= b0 < 0xF5 -> 0x80 <= b1 < 0xC0 -> 0x80 <= b2 < 0xC0 ->
  0x80 <= b3 < 0xC0 ->
  (b0 = 0xF0 -> 0x90 <= b1) -> (b0 = 0xF4 -> b1 < 0x90) ->
  utf8_encode_char (b0 * 262144 + b1 * 4096 + b2 * 64 + b3 - 63447168)
  = Ret [b0; b1; b2; b3]
  /\ scalar (b0 * 262144 + b1 * 4096 + b2 * 64 + b3 - 63447168).
Proof.
  intros H0 H1 H2 H3 Hlo Hhi.
  set (ch := b0 * 262144 + b1 * 4096 + b2 * 64 + b3 - 63447168).
  assert (0x10000 <= ch <= 0x10FFFF) as Hch by (unfold ch; lia).
  unfold utf8_encode_char, scalar. tests.
  all: rewrite !trail, (lead 0xF0 (Z.shiftr ch 18) 4)
    by (try reflexivity; arith).
  all: rewrite !Z.shiftr_div_pow2 by lia.
  all: change (2 ^ 6) with 64; change (2 ^ 12) with 4096;
    change (2 ^ 18) with 262144.
  all: split; [|lia]; unfold ch;
    do 2 f_equal; [|f_equal; [|f_equal; [|f_equal]]];
    Z.div_mod_to_equations; lia.
Qed.

Lemma encode_cons (ch : Z) (s : pystr) (bs b : pybytes) :
  utf8_encode_char ch = Ret bs -> str_encode_utf8 s = Ret b ->
  str_encode_utf8 (ch :: s) = Ret (bs ++ b).
Proof. intros H1 H2. cbn [str_encode_utf8]. now rewrite H1, H2. Qed.

(** The strict decoder accepts only what the encoder writes: the text it
    returns is made of scalar values and encodes to the very octets that
    were decoded. *)
Lemma utf8_decode_encode (n : nat) :
  forall b s,
    (length b <= n)%nat ->
    bytes_decode_utf8 b = Ret s ->
    str_encode_utf8 s = Ret b /\ Forall scalar s.
Proof.
  induction n as [|n IH]; intros b s Hn H.
  - destruct b; [|cbn [length] in Hn; lia].
    apply ret_inj in H. subst s. now split.
  - destruct b as [|ch s1]; [apply ret_inj in H; subst s; now split|].
    cbn [bytes_decode_utf8] in H. cbn [length] in Hn.
    destruct (Z.ltb_spec ch 0); [discriminate|].
    destruct (Z.ltb_spec ch 0x80).
    { destruct (bytes_decode_utf8 s1) as [r|] eqn:Hr; [|discriminate].
      apply ret_inj in H. subst s.
      destruct (IH s1 r ltac:(lia) Hr) as [He Hs].
      destruct (encode_1 ch ltac:(lia)) as [Hc Hsc].
      split; [now apply (encode_cons ch r [ch] s1) | now constructor]. }
    destruct (Z.ltb_spec ch 0xC2); [discriminate|].
    destruct (Z.ltb_spec ch 0xE0).
    { destruct s1 as [|ch2 s2]; [discriminate|].
      unfold is_continuation_byte in H.
      destruct (Z.leb_spec 0x80 ch2); destruct (Z.ltb_spec ch2 0xC0);
        cbn [andb negb] in H; try discriminate.
      destruct (bytes_decode_utf8 s2) as [r|] eqn:Hr; [|discriminate].
      apply ret_inj in H. subst s. cbn [length] in Hn.
      destruct (IH s2 r ltac:(lia) Hr) as [He Hs].
      rewrite !Z.shiftl_mul_pow2 by lia.
      change (2 ^ 6) with 64. change (192 * 64 + 128) with 12416.
      destruct (encode_2 ch ch2 ltac:(lia) ltac:(lia)) as [Hc Hsc].
      split; [now apply (encode_cons _ r [ch; ch2] s2) | now constructor]. }
    destruct (Z.ltb_spec ch 0xF0).
    { destruct s1 as [|ch2 [|ch3 s3]]; try discriminate.
      unfold is_continuation_byte in H.
      destruct (Z.leb_spec 0x80 ch2); destruct (Z.ltb_spec ch2 0xC0);
        cbn [andb negb] in H; try discriminate.
      destruct (Z.eqb_spec ch 0xE0); destruct (Z.ltb_spec ch2 0xA0);
        cbn [andb negb] in H; try discriminate.
      all: destruct (Z.eqb_spec ch 0xED); destruct (Z.leb_spec 0xA0 ch2);
        cbn [andb negb] in H; try discriminate; try lia.
      all: destruct (Z.leb_spec 0x80 ch3); destruct (Z.ltb_spec ch3 0xC0);
        cbn [andb negb] in H; try discriminate.
      all: destruct (bytes_decode_utf8 s3) as [r|] eqn:Hr; [|discriminate].
      all: apply ret_inj in H; subst s; cbn [length] in Hn.
      all: destruct (IH s3 r ltac:(lia) Hr) as [He Hs].
      all: rewrite !Z.shiftl_mul_pow2 by lia.
      all: change (2 ^ 6) with 64; change (2 ^ 12) with 4096.
      all: change (224 * 4096 + 128 * 64 + 128) with 925824.
      all: destruct (encode_3 ch ch2 ch3) as [Hc Hsc]; try lia.
      all: split; [now apply (encode_cons _ r [ch; ch2; ch3] s3)
                  | now constructor]. }
    destruct (Z.ltb_spec ch 0xF5); [|discriminate].
    destruct s1 as [|ch2 [|ch3 [|ch4 s4]]]; try discriminate.
    unfold is_continuation_byte in H.
    destruct (Z.leb_spec 0x80 ch2); destruct (Z.ltb_spec ch2 0xC0);
      cbn [andb negb] in H; try discriminate.
    destruct (Z.eqb_spec ch 0xF0); destruct (Z.ltb_spec ch2 0x90);
      cbn [andb negb] in H; try discriminate.
    all: destruct (Z.eqb_spec ch 0xF4); destruct (Z.leb_spec 0x90 ch2);
      cbn [andb negb] in H; try discriminate; try lia.
    all: destruct (Z.leb_spec 0x80 ch3); destruct (Z.ltb_spec ch3 0xC0);
      cbn [andb negb] in H; try discriminate.
    all: destruct (Z.leb_spec 0x80 ch4); destruct (Z.ltb_spec ch4 0xC0);
      cbn [andb negb] in H; try discriminate.
    all: destruct (bytes_decode_utf8 s4) as [r|] eqn:Hr; [|discriminate].
    all: apply ret_inj in H; subst s; cbn [length] in Hn.
    all: destruct (IH s4 r ltac:(lia) Hr) as [He Hs].
    all: rewrite !Z.shiftl_mul_pow2 by lia.
    all: change (2 ^ 6) with 64; change (2 ^ 12) with 4096;
      change (2 ^ 18) with 262144.
    all: change (240 * 262144 + 128 * 4096 + 128 * 64 + 128) with 63447168.
    all: destruct (encode_4 ch ch2 ch3 ch4) as [Hc Hsc]; try lia.
    all: split; [now apply (encode_cons _ r [ch; ch2; ch3; ch4] s4)
                | now constructor].
Qed.

End Utf8Strict.

(* ================================================================== *)
(** * The parsing stages: what a header must be, and what is ignored *)
(* ================================================================== *)

Module HeaderFacts.
Import BasicAuth Base64Facts Utf8Facts StageFacts DecodeFacts TokenLeniency Utf8Strict.

(** X4. [decode_base64_authorization_header] looks only at the base64
    digits and the '=' of an ASCII token: two ASCII tokens that agree
    once every other character is removed give the same result. *)
Theorem decode_ignores_foreign_characters :
  forall t1 t2 : pystr,
    Forall seven_bit t1 -> Forall seven_bit t2 ->
    filter significant t1 = filter significant t2 ->
    decode_base64_authorization_header (PStr t1)
    = decode_base64_authorization_header (PStr t2).
Proof.
  intros t1 t2 H1 H2 E. unfold decode_base64_authorization_header.
  cbn [is_none]. cbv iota.
  now rewrite <- (b64decode_filter t1), <- (b64decode_filter t2), E.
Qed.

Lemma decode_ignores_foreign_characters_witness :
  decode_base64_authorization_header (PStr py:"Ym9i OnB3 !")
  = decode_base64_authorization_header (PStr py:"Ym9iOnB3").
Proof.
  apply decode_ignores_foreign_characters.
  - repeat constructor; unfold seven_bit; simpl; lia.
  - repeat constructor; unfold seven_bit; simpl; lia.
  - reflexivity.
Defined.

(** X5. ASCII text that follows a padded base64 encoding of
    user:password in the header is ignored: the three parsing stages
    return the user and the password as they do without it. *)
Theorem header_trailing_data_ignored :
  forall (user pass junk : pystr) (octets : pybytes),
    contains 58 user = false ->
    str_encode_utf8 (user ++ py:":" ++ pass) = Ret octets ->
    (length octets mod 3 <> 0)%nat ->
    Forall seven_bit junk ->
    parse_header (py:"Basic " ++ b64encode octets ++ junk)
    = Ret (PStr user, PStr pass).
Proof.
  intros user pass junk octets Hu He Hlen Hj. unfold parse_header.
  rewrite extract_prefixed. cbn [rbind].
  rewrite (decode_ok _ octets (user ++ py:":" ++ pass)).
  - cbn [rbind]. now apply split_colon.
  - apply b64decode_trailing; try assumption. now apply (utf8_octets _ _ He).
  - now apply utf8_roundtrip.
Qed.

Lemma header_trailing_data_ignored_witness :
  parse_header (py:"Basic " ++ b64encode py:"bob@x.com:secret"
                  ++ py:"AAAA and more")
  = Ret (PStr py:"bob@x.com", PStr py:"secret").
Proof.
  apply (header_trailing_data_ignored py:"bob@x.com" py:"secret"
           py:"AAAA and more" py:"bob@x.com:secret").
  - reflexivity.
  - reflexivity.
  - simpl. lia.
  - repeat constructor; unfold seven_bit; simpl; lia.
Defined.

Lemma decode_str_inv (token text : pystr) :
  decode_base64_authorization_header (PStr token) = Ret (PStr text) ->
  exists octets,
    b64decode token = Ret octets /\ bytes_decode_utf8 octets = Ret text.
Proof.
  intros H. unfold decode_base64_authorization_header in H.
  cbn [is_none] in H. cbv iota in H.
  destruct (b64decode token) as [octets|] eqn:Hb; [|discriminate].
  cbn [rbind rcatch] in H.
  destruct (bytes_decode_utf8 octets) as [t|] eqn:Ht; [|discriminate].
  cbn [rbind rcatch] in H.
  exists octets. split; [reflexivity | congruence].
Qed.

(** X6. When [decode_base64_authorization_header] returns a text, the
    base64 decoding of the token gave octets, the text is made of
    Unicode scalar values, and its UTF-8 encoding is exactly those
    octets. *)
Theorem decoded_text_well_formed :
  forall token text : pystr,
    decode_base64_authorization_header (PStr token) = Ret (PStr text) ->
    Forall scalar text
    /\ exists octets,
        b64decode token = Ret octets
        /\ Forall octet octets
        /\ str_encode_utf8 text = Ret octets.
Proof.
  intros token text H.
  destruct (decode_str_inv _ _ H) as (octets & Hb & Ht).
  destruct (utf8_decode_encode (length octets) octets text (le_n _) Ht)
    as [He Hs].
  split; [assumption|]. exists octets.
  repeat split; try assumption. now apply (b64decode_octets token).
Qed.

Lemma decoded_text_well_formed_witness :
  Forall scalar py:"bob:pw"
  /\ exists octets,
      b64decode py:"Ym9iOnB3" = Ret octets
      /\ Forall octet octets
      /\ str_encode_utf8 py:"bob:pw" = Ret octets.
Proof.
  apply (decoded_text_well_formed py:"Ym9iOnB3" py:"bob:pw"). reflexivity.
Defined.

(** X7. When the three parsing stages return a user and a password,
    the header is "Basic " followed by a token whose base64 decoding is
    the UTF-8 encoding of user, ':' and password, and the user has no
    colon in it. *)
Theorem header_credentials_sound :
  forall header user pass : pystr,
    parse_header header = Ret (PStr user, PStr pass) ->
    contains 58 user = false
    /\ exists token octets,
        header = py:"Basic " ++ token
        /\ b64decode token = Ret octets
        /\ str_encode_utf8 (user ++ py:":" ++ pass) = Ret octets.
Proof.
  intros header user pass H. unfold parse_header in H.
  unfold extract_base64_authorization_header in H.
  cbn [is_none] in H. cbv iota in H.
  destruct (startswith header py:"Basic ") eqn:Hs;
    cbn [negb rbind] in H; [|discriminate].
  apply startswith_inv in Hs.
  change (length py:"Basic ") with 6%nat in Hs.
  destruct (decode_total (PStr (skipn 6 header))) as [Hd | [text Hd]];
    rewrite Hd in H; cbn [rbind] in H; [discriminate|].
  destruct (decode_str_inv _ _ Hd) as (octets & Hb & Ht).
  destruct (contains 58 text) eqn:Hc;
    [|rewrite (split_no_colon _ Hc) in H; discriminate].
  destruct (contains_split _ _ Hc) as (a & b & -> & Ha).
  rewrite (split_colon _ _ Ha) in H.
  assert (a = user /\ b = pass) as [<- <-] by (split; congruence).
  split; [assumption|]. exists (skipn 6 header), octets.
  repeat split; try assumption.
  now apply (utf8_decode_encode (length octets)).
Qed.

Lemma header_credentials_sound_witness :
  contains 58 py:"bob" = false
  /\ exists token octets,
      py:"Basic Ym9i OnB3 !" = py:"Basic " ++ token
      /\ b64decode token = Ret octets
      /\ str_encode_utf8 (py:"bob" ++ py:":" ++ py:"pw") = Ret octets.
Proof.
  apply (header_credentials_sound py:"Basic Ym9i OnB3 !" py:"bob" py:"pw").
  reflexivity.
Defined.

End HeaderFacts.

(* ================================================================== *)
(** * [current_user]: which calls are made, and with what *)
(* ================================================================== *)

Module RequestFacts.
Import BasicAuth Base64Facts Utf8Facts StageFacts DecodeFacts SchemeFacts.

Section Calls.

Context {Request User : Type}.
Variable getHeader : Request -> pystr -> option pystr.
Variable search : pystr -> res (list User).
Variable is_valid_password : User -> pystr -> bool.

Local Abbreviation first_valid := (first_valid is_valid_password).
Local Abbreviation user_object_from_credentials :=
  (user_object_from_credentials search is_valid_password).
Local Abbreviation current_user :=
  (current_user getHeader search is_valid_password).

Lemma first_valid_find (users : list User) (pwd : pystr) :
  outcome (first_valid users pwd)
  = Ret (List.find (fun u => is_valid_password u pwd) users).
Proof.
  induction users as [|u users IH]; [reflexivity|].
  cbn [BasicAuth.first_valid List.find].
  destruct (is_valid_password u pwd); [reflexivity|].
  destruct (first_valid users pwd) as [t o]. exact IH.
Qed.

Lemma first_valid_trace (users : list User) (pwd : pystr) (ev : event User) :
  In ev (trace (first_valid users pwd)) ->
  exists u, ev = IsValidPassword u pwd /\ In u users.
Proof.
  induction users as [|u users IH]; [intros []|].
  cbn [BasicAuth.first_valid].
  destruct (is_valid_password u pwd).
  - intros [<-|[]]. exists u. split; [reflexivity | now left].
  - destruct (first_valid users pwd) as [t o]. cbn in *.
    intros [<-|H].
    + exists u. split; [reflexivity | now left].
    + destruct (IH H) as (v & -> & Hv). exists v. split; [reflexivity | now right].
Qed.

Lemma resolve_is_find :
  forall email pwd : pystr,
    outcome (user_object_from_credentials (PStr email) (PStr pwd))
    = Ret (match search email with
           | Ret users => List.find (fun u => is_valid_password u pwd) users
           | Raise _ => None
           end).
Proof.
  intros email pwd. destruct (search email) as [users|e] eqn:Hs.
  - rewrite (resolve_store_ok _ _ _ pwd _ Hs). apply first_valid_find.
  - rewrite resolve_store_error by now exists e. reflexivity.
Qed.

(** X1. A request whose Authorization header is "Basic " followed by
    the base64 encoding of the UTF-8 text email:password, the email
    without a colon, passes every parsing stage: [current_user] calls
    the header lookup, the three stages and the user lookup in that
    order, and returns the first user found under that email whose
    password check succeeds, none when there is none or the search
    raises. *)
Theorem current_user_authenticates :
  forall (request : Request) (email pwd : pystr) (octets : pybytes),
    getHeader request py:"Authorization"
    = Some (py:"Basic " ++ b64encode octets) ->
    contains 58 email = false ->
    str_encode_utf8 (email ++ py:":" ++ pwd) = Ret octets ->
    current_user (Some request)
    = ([AuthorizationHeader; ExtractBase64; DecodeBase64;
        ExtractCredentials; UserFromCredentials]
         ++ trace (user_object_from_credentials (PStr email) (PStr pwd)),
       Ret (match search email with
            | Ret users => List.find (fun u => is_valid_password u pwd) users
            | Raise _ => None
            end)).
Proof.
  intros request email pwd octets Hh He Ho.
  rewrite (current_user_staged getHeader search is_valid_password request
             _ (b64encode octets) (email ++ py:":" ++ pwd) email pwd Hh).
  - f_equal. apply resolve_is_find.
  - apply extract_prefixed.
  - apply (decode_ok _ octets).
    + apply b64decode_b64encode. now apply (utf8_octets _ _ Ho).
    + now apply utf8_roundtrip.
  - now apply split_colon.
Qed.

(** X2. [current_user] reaches the user store only with what the
    header carries: every search it makes is for the email the three
    stages read from the request's Authorization header, and every
    password check is of a user that search returned, against the
    password read from the same header. *)
Theorem store_calls_come_from_header :
  forall (request : option Request) (ev : event User),
    In ev (trace (current_user request)) ->
    match ev with
    | Search e =>
        exists r header pwd,
          request = Some r
          /\ getHeader r py:"Authorization" = Some header
          /\ parse_header header = Ret (PStr e, PStr pwd)
    | IsValidPassword u p =>
        exists r header e users,
          request = Some r
          /\ getHeader r py:"Authorization" = Some header
          /\ parse_header header = Ret (PStr e, PStr p)
          /\ search e = Ret users /\ In u users
    | _ => True
    end.
Proof.
  intros [r|] ev Hev; [|destruct Hev].
  destruct (current_user_cases getHeader search is_valid_password r)
    as [[_ Ht] | (header & token & decoded & email & pwd
                  & Hh & H1 & H2 & H3)].
  { specialize (Ht ev Hev). cbn in Ht.
    destruct Ht as [<-|[<-|[<-|[<-|[]]]]]; exact I. }
  assert (parse_header header = Ret (PStr email, PStr pwd)) as Hp
      by (unfold parse_header; rewrite H1; cbn [rbind]; rewrite H2;
          cbn [rbind]; exact H3).
  rewrite (current_user_staged _ _ _ _ _ _ _ _ _ Hh H1 H2 H3) in Hev.
  unfold trace at 1 in Hev. cbn [fst] in Hev.
  apply in_app_or in Hev as [Hev|Hev].
  { cbn in Hev. destruct Hev as [<-|[<-|[<-|[<-|[<-|[]]]]]]; exact I. }
  destruct (search email) as [users|e] eqn:Hs.
  - rewrite (resolve_store_ok _ _ _ pwd _ Hs) in Hev.
    unfold trace at 1 in Hev. cbn [fst] in Hev.
    destruct Hev as [<-|Hev].
    + now exists r, header, pwd.
    + destruct (first_valid_trace _ _ _ Hev) as (u & -> & Hu).
      now exists r, header, email, users.
  - rewrite resolve_store_error in Hev by now exists e.
    destruct Hev as [<-|[]]. now exists r, header, pwd.
Qed.

(** X3. [current_user] returns none at the first stage that fails and
    calls nothing after it: with a header that does not start with
    "Basic ", only the header lookup and the first stage are called;
    with a token that does not decode, those and the decoding stage;
    with a decoded text that has no colon, those and the splitting
    stage.  The user store is not reached. *)
Theorem current_user_stops_at_failing_stage :
  (forall (request : Request) (header : pystr),
      getHeader request py:"Authorization" = Some header ->
      startswith header py:"Basic " = false ->
      current_user (Some request)
      = ([AuthorizationHeader; ExtractBase64], Ret None))
  /\ (forall (request : Request) (token : pystr),
         getHeader request py:"Authorization" = Some (py:"Basic " ++ token) ->
         decode_base64_authorization_header (PStr token) = Ret PNone ->
         current_user (Some request)
         = ([AuthorizationHeader; ExtractBase64; DecodeBase64], Ret None))
  /\ (forall (request : Request) (token decoded : pystr),
         getHeader request py:"Authorization" = Some (py:"Basic " ++ token) ->
         decode_base64_authorization_header (PStr token)
         = Ret (PStr decoded) ->
         contains 58 decoded = false ->
         current_user (Some request)
         = ([AuthorizationHeader; ExtractBase64; DecodeBase64;
             ExtractCredentials], Ret None)).
Proof.
  split; [|split].
  - intros request header Hh Hp.
    unfold BasicAuth.current_user, BasicAuth.authorization_header.
    rewrite Hh. unfold call, bind, ret. cbn [is_none]. cbv iota.
    unfold extract_base64_authorization_header.
    cbn [is_none]. cbv iota. rewrite Hp. reflexivity.
  - intros request token Hh Hd.
    unfold BasicAuth.current_user, BasicAuth.authorization_header.
    rewrite Hh. unfold call, bind, ret. cbn [is_none]. cbv iota.
    rewrite extract_prefixed. cbn [is_none]. cbv iota.
    rewrite Hd. reflexivity.
  - intros request token decoded Hh Hd Hc.
    unfold BasicAuth.current_user, BasicAuth.authorization_header.
    rewrite Hh. unfold call, bind, ret. cbn [is_none]. cbv iota.
    rewrite extract_prefixed. cbn [is_none]. cbv iota.
    rewrite Hd. cbn [is_none]. cbv iota.
    rewrite (split_no_colon _ Hc). reflexivity.
Qed.

End Calls.

Lemma current_user_authenticates_witness :
  current_user Fixture.getHeader Fixture.search Fixture.is_valid_password
    (Some (Fixture.basic py:"bob@x.com:secret"))
  = ([AuthorizationHeader; ExtractBase64; DecodeBase64;
      ExtractCredentials; UserFromCredentials]
       ++ trace (user_object_from_credentials Fixture.search
                   Fixture.is_valid_password
                   (PStr py:"bob@x.com") (PStr py:"secret")),
     Ret (match Fixture.search py:"bob@x.com" with
          | Ret users =>
              List.find (fun u => Fixture.is_valid_password u py:"secret")
                        users
          | Raise _ => None
          end)).
Proof.
  apply (current_user_authenticates Fixture.getHeader Fixture.search
           Fixture.is_valid_password (Fixture.basic py:"bob@x.com:secret")
           py:"bob@x.com" py:"secret" py:"bob@x.com:secret");
    reflexivity.
Defined.

Lemma store_calls_come_from_header_witness :
  exists r header e users,
    Some (Fixture.basic py:"bob@x.com:secret") = Some r
    /\ Fixture.getHeader r py:"Authorization" = Some header
    /\ parse_header header = Ret (PStr e, PStr py:"secret")
    /\ Fixture.search e = Ret users /\ In Fixture.bob users.
Proof.
  apply (store_calls_come_from_header Fixture.getHeader Fixture.search
           Fixture.is_valid_password
           (Some (Fixture.basic py:"bob@x.com:secret"))
           (IsValidPassword Fixture.bob py:"secret")).
  vm_compute. tauto.
Defined.

Lemma current_user_stops_at_failing_stage_witness :
  current_user Fixture.getHeader Fixture.search Fixture.is_valid_password
    (Some [(py:"Authorization", py:"Bearer Ym9iOnB3")])
  = ([AuthorizationHeader; ExtractBase64], Ret None)
  /\ current_user Fixture.getHeader Fixture.search Fixture.is_valid_password
       (Some [(py:"Authorization", py:"Basic " ++ py:"Ym9iO")])
     = ([AuthorizationHeader; ExtractBase64; DecodeBase64], Ret None)
  /\ current_user Fixture.getHeader Fixture.search Fixture.is_valid_password
       (Some [(py:"Authorization", py:"Basic " ++ py:"Ym9i")])
     = ([AuthorizationHeader; ExtractBase64; DecodeBase64;
         ExtractCredentials], Ret None).
Proof.
  destruct (current_user_stops_at_failing_stage Fixture.getHeader
              Fixture.search Fixture.is_valid_password) as (H1 & H2 & H3).
  split; [|split].
  - apply (H1 _ py:"Bearer Ym9iOnB3"); reflexivity.
  - apply (H2 _ py:"Ym9iO"); reflexivity.
  - apply (H3 _ py:"Ym9i" py:"bob"); reflexivity.
Defined.

End RequestFacts.

(* ================================================================== *)
(** * The redaction, record by record *)
(* ================================================================== *)

Module RedactFacts.
Import Re FilteredLogger DatumPattern ReFacts.

Section Redact.

Variable fields : list pystr.
Variable redaction : pystr.
Variable sep : Z.

Local Abbreviation red := (fun s => redact fields redaction s sep).

Lemma redact_loop_nil (k : nat) : redact_loop k fields redaction sep [] = [].
Proof.
  destruct k; [reflexivity|]. cbn [redact_loop].
  now rewrite first_occurrence_nil.
Qed.

(** The count that bounds the loop does not matter once it covers the
    message. *)
Lemma redact_loop_enough (n : nat) :
  forall s k1 k2,
    (length s <= n)%nat -> (length s <= k1)%nat -> (length s <= k2)%nat ->
    redact_loop k1 fields redaction sep s
    = redact_loop k2 fields redaction sep s.
Proof.
  induction n as [|n IH]; intros s k1 k2 Hn H1 H2.
  - destruct s; [|cbn [length] in Hn; lia]. now rewrite !redact_loop_nil.
  - destruct s as [|x s]; [now rewrite !redact_loop_nil|].
    cbn [length] in *.
    destruct k1 as [|k1]; [lia|]. destruct k2 as [|k2]; [lia|].
    cbn [redact_loop].
    destruct (first_occurrence sep fields (x :: s)) as [[f rest]|] eqn:O.
    + pose proof (first_occurrence_shorter _ _ _ _ _ O) as Hlt.
      cbn [length] in Hlt.
      now rewrite (IH rest k1 k2) by lia.
    + now rewrite (IH s k1 k2) by lia.
Qed.

Lemma red_nil : red [] = [].
Proof. apply redact_loop_nil. Qed.

Lemma red_hit (s f rest : pystr) :
  first_occurrence sep fields s = Some (f, rest) ->
  red s = f ++ py:"=" ++ redaction ++ red rest.
Proof.
  intros O. unfold redact.
  pose proof (first_occurrence_shorter _ _ _ _ _ O) as Hlt.
  rewrite (redact_loop_enough (length rest) rest (S (length rest))
             (length s)) by lia.
  cbn [redact_loop]. now rewrite O.
Qed.

Lemma red_miss (x : Z) (s : pystr) :
  first_occurrence sep fields (x :: s) = None ->
  red (x :: s) = x :: red s.
Proof.
  intros O. unfold redact. cbn [length].
  set (k := S (length s)). cbn [redact_loop]. now rewrite O.
Qed.

(** ** Occurrences *)

Lemma run_no_sep (s : pystr) : contains sep s = false -> run sep s = s.
Proof.
  induction s as [|x s IH]; [reflexivity|].
  cbn [contains existsb run]. intros H.
  apply orb_false_iff in H as [Hx Hs].
  rewrite Z.eqb_sym, Hx. f_equal. now apply IH.
Qed.

Lemma run_app_sep (s b : pystr) : run sep (s ++ sep :: b) = run sep s.
Proof.
  induction s as [|x s IH]; cbn [app run].
  - now rewrite Z.eqb_refl.
  - destruct (x =? sep); [reflexivity | now rewrite IH].
Qed.

Lemma run_app_no_sep (v rest : pystr) :
  contains sep v = false -> rest = [] \/ (exists r, rest = sep :: r) ->
  run sep (v ++ rest) = v.
Proof.
  intros Hv [->|[r ->]].
  - rewrite app_nil_r. now apply run_no_sep.
  - rewrite run_app_sep. now apply run_no_sep.
Qed.

Lemma startswith_app_sep (q s b : pystr) :
  contains sep q = false ->
  startswith (s ++ sep :: b) q = startswith s q.
Proof.
  revert s; induction q as [|c q IH]; intros s H; [reflexivity|].
  cbn [contains existsb] in H. apply orb_false_iff in H as [Hc Hq].
  destruct s as [|x s]; cbn [app startswith].
  - now rewrite Hc.
  - now rewrite (IH s Hq).
Qed.

Lemma occurrence_inv (g s rest : pystr) :
  occurrence sep g s = Some rest ->
  exists after,
    s = g ++ 61 :: after /\ run sep after <> []
    /\ rest = skipn (length (run sep after)) after.
Proof.
  intros O. unfold occurrence in O.
  destruct (startswith s (g ++ py:"=")) eqn:E; [|discriminate].
  apply startswith_inv in E.
  rewrite length_app in E. change (length py:"=") with 1%nat in E.
  exists (skipn (length g + 1) s). split; [|split].
  - rewrite E at 1. now rewrite <- app_assoc.
  - destruct (run sep (skipn (length g + 1) s)); [discriminate | congruence].
  - destruct (run sep (skipn (length g + 1) s)) eqn:R; [discriminate|].
    congruence.
Qed.

Lemma occurrence_here (g after : pystr) :
  occurrence sep g (g ++ 61 :: after)
  = match run sep after with
    | [] => None
    | (_ :: _) as value => Some (skipn (length value) after)
    end.
Proof. rewrite occurrence_app. cbn [value_here]. now rewrite Z.eqb_refl. Qed.

Lemma first_occurrence_inv (s g rest : pystr) :
  first_occurrence sep fields s = Some (g, rest) ->
  In g fields /\ occurrence sep g s = Some rest.
Proof.
  induction fields as [|f others IH]; [discriminate|].
  cbn [first_occurrence].
  destruct (occurrence sep f s) as [r|] eqn:O.
  - intros H. assert (f = g /\ r = rest) as [<- <-] by (split; congruence).
    split; [now left | assumption].
  - intros H. destruct (IH H) as [Hin Ho]. split; [now right | assumption].
Qed.

Lemma first_occurrence_of (s f rest : pystr) :
  In f fields -> occurrence sep f s = Some rest ->
  first_occurrence sep fields s <> None.
Proof.
  induction fields as [|g others IH]; [intros []|].
  cbn [first_occurrence]. intros [->|Hin] O.
  - now rewrite O.
  - destruct (occurrence sep g s); [discriminate | now apply IH].
Qed.

(** ** Records: text on either side of a separator *)

Lemma none_has_in (c : Z) (g : pystr) :
  none_has c fields = true -> In g fields -> contains c g = false.
Proof.
  unfold none_has. rewrite forallb_forall. intros H Hin.
  specialize (H g Hin). now destruct (contains c g).
Qed.

Lemma occurrence_app_sep (g s b : pystr) :
  contains sep g = false -> sep <> 61 ->
  occurrence sep g (s ++ sep :: b)
  = match occurrence sep g s with
    | Some rest => Some (rest ++ sep :: b)
    | None => None
    end.
Proof.
  intros Hg Hsep.
  assert (contains sep (g ++ py:"=") = false) as Hq.
  { rewrite contains_app, Hg. cbn. rewrite orb_false_r.
    now apply Z.eqb_neq. }
  destruct (occurrence sep g s) as [rest|] eqn:O.
  - destruct (occurrence_inv _ _ _ O) as (after & -> & Hr & ->).
    rewrite <- app_assoc. cbn [app]. rewrite occurrence_here, run_app_sep.
    destruct (run sep after) as [|v value] eqn:R; [congruence|].
    f_equal. rewrite skipn_app.
    replace (length (v :: value) - length after)%nat with 0%nat; [reflexivity|].
    pose proof (run_length sep after) as L. rewrite R in L. lia.
  - unfold occurrence in *. rewrite (startswith_app_sep _ _ _ Hq).
    destruct (startswith s (g ++ py:"=")) eqn:E; [|reflexivity].
    apply startswith_inv in E.
    rewrite length_app in E. change (length py:"=") with 1%nat in E.
    set (after := skipn (length g + 1) s) in *.
    replace (skipn (length g + 1) (s ++ sep :: b)) with (after ++ sep :: b).
    + rewrite run_app_sep. destruct (run sep after); [reflexivity | discriminate].
    + unfold after. rewrite skipn_app.
      replace (length g + 1 - length s)%nat with 0%nat; [reflexivity|].
      assert (length s = length ((g ++ py:"=") ++ after)) as L by now rewrite <- E.
      rewrite !length_app in L. change (length py:"=") with 1%nat in L. lia.
Qed.

Lemma first_occurrence_app_sep (s b : pystr) :
  none_has sep fields = true -> sep <> 61 ->
  first_occurrence sep fields (s ++ sep :: b)
  = match first_occurrence sep fields s with
    | Some (f, rest) => Some (f, rest ++ sep :: b)
    | None => None
    end.
Proof.
  intros Hn Hsep.
  assert (forall g, In g fields -> contains sep g = false) as H
      by (intros g; now apply none_has_in).
  clear Hn. induction fields as [|f others IH]; [reflexivity|].
  cbn [first_occurrence].
  rewrite occurrence_app_sep by (try assumption; apply H; now left).
  destruct (occurrence sep f s); [reflexivity|].
  apply IH. intros g Hg. apply H. now right.
Qed.

(** The text before a separator and the text after it are redacted
    apart. *)
Lemma red_app_sep (n : nat) :
  none_has sep fields = true -> sep <> 61 ->
  forall a b, (length a <= n)%nat ->
    red (a ++ sep :: b) = red a ++ sep :: red b.
Proof.
  intros Hn Hsep. induction n as [|n IH]; intros a b Hlen.
  - destruct a; [|cbn [length] in Hlen; lia].
    cbn [app]. rewrite red_nil. cbn [app]. apply red_miss.
    change (sep :: b) with ([] ++ sep :: b).
    now rewrite first_occurrence_app_sep, first_occurrence_nil.
  - destruct a as [|x a].
    { cbn [app]. rewrite red_nil. cbn [app]. apply red_miss.
      change (sep :: b) with ([] ++ sep :: b).
      now rewrite first_occurrence_app_sep, first_occurrence_nil. }
    pose proof (first_occurrence_app_sep (x :: a) b Hn Hsep) as Hocc.
    destruct (first_occurrence sep fields (x :: a)) as [[f rest]|] eqn:O.
    + rewrite (red_hit _ _ _ Hocc), (red_hit _ _ _ O).
      pose proof (first_occurrence_shorter _ _ _ _ _ O) as Hlt.
      rewrite IH by (cbn [length] in *; lia).
      now rewrite <- !app_assoc.
    + cbn [app] in *. rewrite (red_miss _ _ Hocc), (red_miss _ _ O).
      cbn [length] in Hlen. rewrite IH by lia. reflexivity.
Qed.

(** ** Segments: text without a separator *)

Lemma contains_cons (c x : Z) (s : pystr) :
  contains c (x :: s) = (c =? x) || contains c s.
Proof. reflexivity. Qed.

Lemma contains_one (c d : Z) : contains c [d] = (c =? d).
Proof. unfold contains. cbn. apply orb_false_r. Qed.

Lemma startswith_key_inv (a g t : pystr) :
  contains 61 a = false -> contains 61 g = false ->
  startswith (a ++ 61 :: t) (g ++ [61]) = true -> g = a.
Proof.
  revert g; induction a as [|x a IH]; intros g Ha Hg H.
  - destruct g as [|c g]; [reflexivity|].
    cbn [contains existsb] in Hg. apply orb_false_iff in Hg as [Hc _].
    cbn [app startswith] in H. rewrite Hc in H. discriminate.
  - cbn [contains existsb] in Ha. apply orb_false_iff in Ha as [Hx Ha].
    destruct g as [|c g].
    + cbn [app startswith] in H. rewrite Z.eqb_sym, Hx in H. discriminate.
    + cbn [contains existsb] in Hg. apply orb_false_iff in Hg as [_ Hg].
      cbn [app startswith] in H. apply andb_true_iff in H as [Hxc H].
      apply Z.eqb_eq in Hxc. subst c. f_equal. now apply IH.
Qed.

(** In a text whose part before the first '=' is [a], only the field
    name [a] can occur at the head. *)
Lemma occurrence_key_other (a g t : pystr) :
  contains 61 a = false -> contains 61 g = false -> g <> a ->
  occurrence sep g (a ++ 61 :: t) = None.
Proof.
  intros Ha Hg Hne. unfold occurrence. change (py:"=") with [61].
  destruct (startswith (a ++ 61 :: t) (g ++ [61])) eqn:E; [|reflexivity].
  elim Hne. now apply (startswith_key_inv a g t).
Qed.

Lemma skipn_all_length (s : pystr) : skipn (length s) s = [].
Proof. induction s; auto. Qed.

Lemma occurrence_key_value (a t : pystr) :
  t <> [] -> contains sep t = false ->
  occurrence sep a (a ++ 61 :: t) = Some [].
Proof.
  intros Ht Hs. rewrite occurrence_here, (run_no_sep _ Hs).
  destruct t; [congruence|]. now rewrite skipn_all_length.
Qed.

Lemma first_occurrence_key (a t t' : pystr) :
  none_has 61 fields = true -> contains 61 a = false ->
  t <> [] -> contains sep t = false ->
  t' <> [] -> contains sep t' = false ->
  first_occurrence sep fields (a ++ 61 :: t)
  = first_occurrence sep fields (a ++ 61 :: t').
Proof.
  intros Hn Ha Ht Hs Ht' Hs'.
  assert (forall g, In g fields -> contains 61 g = false) as H
      by (intros g; now apply none_has_in).
  clear Hn. induction fields as [|f others IH]; [reflexivity|].
  cbn [first_occurrence].
  destruct (list_eq_dec Z.eq_dec f a) as [->|Hne].
  - now rewrite !occurrence_key_value.
  - rewrite !occurrence_key_other by (auto; apply H; now left).
    apply IH. intros g Hg. apply H. now right.
Qed.

(** What is read at the head of a segment does not depend on what
    follows its first '=', as long as something does. *)
Lemma first_occurrence_segment (w v v' : pystr) :
  none_has 61 fields = true ->
  contains 61 w = true -> contains sep w = false ->
  v <> [] -> contains sep v = false ->
  v' <> [] -> contains sep v' = false ->
  first_occurrence sep fields (w ++ v) = first_occurrence sep fields (w ++ v').
Proof.
  intros Hn Hw Hsw Hv Hsv Hv' Hsv'.
  destruct (contains_split 61 w Hw) as (a & w2 & -> & Ha).
  rewrite contains_app in Hsw. apply orb_false_iff in Hsw as [_ Hsw].
  rewrite contains_cons in Hsw. apply orb_false_iff in Hsw as [_ Hsw2].
  rewrite <- !app_assoc. cbn [app].
  apply first_occurrence_key; try assumption.
  - destruct w2; [assumption | discriminate].
  - now rewrite contains_app, Hsw2, Hsv.
  - destruct w2; [assumption | discriminate].
  - now rewrite contains_app, Hsw2, Hsv'.
Qed.

Lemma first_occurrence_rest_nil (s g rest : pystr) :
  contains sep s = false ->
  first_occurrence sep fields s = Some (g, rest) -> rest = [].
Proof.
  intros Hs O. apply first_occurrence_inv in O as [_ O].
  destruct (occurrence_inv _ _ _ O) as (after & -> & _ & ->).
  rewrite contains_app in Hs. apply orb_false_iff in Hs as [_ Hs].
  rewrite contains_cons in Hs. apply orb_false_iff in Hs as [_ Hs].
  rewrite (run_no_sep _ Hs). apply skipn_all_length.
Qed.

(** Within a segment, the redaction does not depend on the value of a
    listed field. *)
Lemma red_segment_value (f v v' : pystr) :
  none_has 61 fields = true -> In f fields ->
  contains sep f = false -> sep <> 61 ->
  v <> [] -> contains sep v = false ->
  v' <> [] -> contains sep v' = false ->
  forall p, contains sep p = false ->
    red (p ++ f ++ 61 :: v) = red (p ++ f ++ 61 :: v').
Proof.
  intros Hn Hin Hf Hsep Hv Hsv Hv' Hsv' p.
  induction p as [|x p IH]; intros Hp.
  - cbn [app].
    assert (first_occurrence sep fields (f ++ 61 :: v)
            = first_occurrence sep fields (f ++ 61 :: v')) as E
        by (apply first_occurrence_key; try assumption;
            now apply (none_has_in 61)).
    destruct (first_occurrence sep fields (f ++ 61 :: v)) as [[g rest]|] eqn:O.
    + assert (rest = []) as ->.
      { apply (first_occurrence_rest_nil _ _ _) in O; [assumption|].
        rewrite contains_app, contains_cons, Hf, Hsv. cbn [orb].
        rewrite orb_false_r. now apply Z.eqb_neq. }
      now rewrite (red_hit _ _ _ O), (red_hit _ _ _ (eq_sym E)).
    + exfalso.
      apply (first_occurrence_of (f ++ 61 :: v) f [] Hin); [|assumption].
      now apply occurrence_key_value.
  - rewrite contains_cons in Hp. apply orb_false_iff in Hp as [Hx Hp].
    specialize (IH Hp).
    assert (contains sep ((x :: p) ++ f ++ [61]) = false) as Hw.
    { rewrite !contains_app, contains_cons, contains_one, Hf, Hx, Hp.
      cbn [orb]. now apply Z.eqb_neq. }
    assert (contains 61 ((x :: p) ++ f ++ [61]) = true) as Hw61.
    { rewrite !contains_app, contains_one, Z.eqb_refl.
      now rewrite !orb_true_r. }
    assert (forall u, (x :: p) ++ f ++ 61 :: u
                      = ((x :: p) ++ f ++ [61]) ++ u) as Hu
        by (intros u; now rewrite <- !app_assoc).
    assert (first_occurrence sep fields ((x :: p) ++ f ++ 61 :: v)
            = first_occurrence sep fields ((x :: p) ++ f ++ 61 :: v')) as E
        by (rewrite (Hu v), (Hu v'); now apply first_occurrence_segment).
    destruct (first_occurrence sep fields ((x :: p) ++ f ++ 61 :: v))
      as [[g rest]|] eqn:O.
    + assert (rest = []) as ->.
      { apply (first_occurrence_rest_nil _ _ _) in O; [assumption|].
        rewrite (Hu v), contains_app, Hw. exact Hsv. }
      now rewrite (red_hit _ _ _ O), (red_hit _ _ _ (eq_sym E)).
    + cbn [app] in *. rewrite (red_miss _ _ O), (red_miss _ _ (eq_sym E)).
      now rewrite IH.
Qed.

Lemma split_last_sep (p : pystr) :
  contains sep p = false
  \/ exists p0 p1, p = p0 ++ sep :: p1 /\ contains sep p1 = false.
Proof.
  induction p as [|x p [IH | (p0 & p1 & -> & IH)]].
  - now left.
  - destruct (Z.eqb_spec sep x) as [<-|Hne].
    + right. now exists [], p.
    + left. rewrite contains_cons, IH.
      now rewrite (proj2 (Z.eqb_neq _ _) Hne).
  - right. now exists (x :: p0), p1.
Qed.

(** The redaction of a message does not depend on the value of a
    listed field. *)
Lemma red_value (f v v' rest p : pystr) :
  none_has 61 fields = true -> none_has sep fields = true ->
  In f fields -> sep <> 61 ->
  v <> [] -> contains sep v = false ->
  v' <> [] -> contains sep v' = false ->
  rest = [] \/ (exists r, rest = sep :: r) ->
  red (p ++ f ++ 61 :: v ++ rest) = red (p ++ f ++ 61 :: v' ++ rest).
Proof.
  intros Hn Hs Hin Hsep Hv Hsv Hv' Hsv' Hrest.
  assert (contains sep f = false) as Hf by now apply (none_has_in sep).
  assert (forall p, red (p ++ f ++ 61 :: v) = red (p ++ f ++ 61 :: v')) as H.
  { intros q. destruct (split_last_sep q) as [Hq | (p0 & p1 & -> & Hq)].
    - now apply red_segment_value.
    - rewrite <- !app_assoc. cbn [app].
      rewrite !(red_app_sep (length p0)) by (assumption || lia).
      do 2 f_equal. now apply red_segment_value. }
  destruct Hrest as [->|[r ->]].
  - rewrite !app_nil_r. apply H.
  - replace (p ++ f ++ 61 :: v ++ sep :: r)
      with ((p ++ f ++ 61 :: v) ++ sep :: r)
      by (now rewrite <- !app_assoc).
    replace (p ++ f ++ 61 :: v' ++ sep :: r)
      with ((p ++ f ++ 61 :: v') ++ sep :: r)
      by (now rewrite <- !app_assoc).
    rewrite (red_app_sep (length (p ++ f ++ 61 :: v)))
      by (assumption || lia).
    rewrite (red_app_sep (length (p ++ f ++ 61 :: v')))
      by (assumption || lia).
    now rewrite H.
Qed.

Lemma first_occurrence_key_in (a t : pystr) :
  none_has 61 fields = true -> contains 61 a = false ->
  In a fields ->
  first_occurrence sep fields (a ++ 61 :: t)
  = match run sep t with
    | [] => None
    | (_ :: _) as value => Some (a, skipn (length value) t)
    end.
Proof.
  intros Hn Ha.
  assert (forall g, In g fields -> contains 61 g = false) as H
      by (intros g; now apply none_has_in).
  clear Hn. induction fields as [|f others IH]; [intros []|].
  intros Hin. cbn [first_occurrence].
  destruct (list_eq_dec Z.eq_dec f a) as [->|Hne].
  - rewrite occurrence_here.
    destruct (run sep t) eqn:R; [|reflexivity].
    destruct (in_dec (list_eq_dec Z.eq_dec) a others) as [Hi|Hi].
    + rewrite IH by (auto; intros g Hg; apply H; now right).
      reflexivity.
    + clear IH Hin. induction others as [|g others IH']; [reflexivity|].
      cbn [first_occurrence].
      destruct (list_eq_dec Z.eq_dec g a) as [->|Hga];
        [elim Hi; now left|].
      rewrite occurrence_key_other
        by (auto; apply H; right; now left).
      apply IH'.
      * intros g' Hg'. apply H.
        destruct Hg' as [<-|Hg']; [now left | right; now right].
      * intros Hi'. apply Hi. now right.
  - rewrite occurrence_key_other by (auto; apply H; now left).
    destruct Hin as [->|Hin]; [congruence|].
    apply IH; [intros g Hg; apply H; now right | assumption].
Qed.

Lemma first_occurrence_key_out (a t : pystr) :
  none_has 61 fields = true -> contains 61 a = false ->
  ~ In a fields ->
  first_occurrence sep fields (a ++ 61 :: t) = None.
Proof.
  intros Hn Ha.
  assert (forall g, In g fields -> contains 61 g = false) as H
      by (intros g; now apply none_has_in).
  clear Hn. induction fields as [|f others IH]; [reflexivity|].
  intros Hout. cbn [first_occurrence].
  rewrite occurrence_key_other;
    [| assumption | apply H; now left | intros ->; apply Hout; now left].
  apply IH; [intros g Hg; apply H; now right
            | intros Hi; apply Hout; now right].
Qed.

(** A key with an empty value is left as it is. *)
Lemma red_empty_value (rest : pystr) :
  none_has 61 fields = true ->
  rest = [] \/ (exists r, rest = sep :: r) ->
  forall key, contains 61 key = false ->
    red (key ++ 61 :: rest) = key ++ 61 :: red rest.
Proof.
  intros Hn Hrest.
  assert (run sep rest = []) as Hrun.
  { destruct Hrest as [->|[r ->]]; [reflexivity|].
    cbn [run]. now rewrite Z.eqb_refl. }
  assert (forall a, contains 61 a = false ->
                    first_occurrence sep fields (a ++ 61 :: rest) = None) as O.
  { intros a Ha.
    destruct (in_dec (list_eq_dec Z.eq_dec) a fields) as [Hi|Hi].
    - rewrite first_occurrence_key_in by assumption. now rewrite Hrun.
    - now apply first_occurrence_key_out. }
  induction key as [|x key IH]; intros Hk.
  - cbn [app]. apply red_miss. now apply (O []).
  - cbn [app]. rewrite red_miss by now apply (O (x :: key)).
    rewrite contains_cons in Hk. apply orb_false_iff in Hk as [_ Hk].
    now rewrite IH.
Qed.

Lemma first_occurrence_segment_nil (w V : pystr) :
  none_has 61 fields = true ->
  contains 61 w = true -> contains sep (w ++ V) = false -> V <> [] ->
  first_occurrence sep fields (w ++ V) = None ->
  first_occurrence sep fields w = None.
Proof.
  intros Hn Hw Hs HV O.
  destruct (contains_split 61 w Hw) as (a & w2 & -> & Ha).
  rewrite <- app_assoc in O, Hs. cbn [app] in O, Hs.
  rewrite contains_app, contains_cons in Hs.
  apply orb_false_iff in Hs as [_ Hs].
  apply orb_false_iff in Hs as [_ Hs].
  destruct (in_dec (list_eq_dec Z.eq_dec) a fields) as [Hi|Hi].
  - rewrite first_occurrence_key_in in O by assumption.
    rewrite (run_no_sep _ Hs) in O.
    destruct (w2 ++ V) eqn:E; [|discriminate].
    apply app_eq_nil in E as [_ ->]. congruence.
  - now apply first_occurrence_key_out.
Qed.

(** A segment is left as it is, or is cut after the '=' of its first
    occurrence, whatever the value there. *)
Lemma red_segment_shape (a : pystr) :
  none_has 61 fields = true -> sep <> 61 ->
  contains sep a = false ->
  red a = a
  \/ exists w V,
      a = w ++ V /\ V <> [] /\ contains 61 w = true
      /\ forall v, contains sep v = false ->
                   red (w ++ v)
                   = w ++ match v with [] => [] | _ :: _ => redaction end.
Proof.
  intros Hn Hsep. induction a as [|x a IH]; intros Ha.
  - left. apply red_nil.
  - destruct (first_occurrence sep fields (x :: a)) as [[g rest]|] eqn:O.
    + right.
      destruct (first_occurrence_inv _ _ _ O) as [Hin Ho].
      destruct (occurrence_inv _ _ _ Ho) as (after & E & Hr & _).
      assert (contains 61 g = false) as Hg by now apply (none_has_in 61).
      assert (contains sep after = false) as Hafter.
      { rewrite E, contains_app, contains_cons in Ha.
        apply orb_false_iff in Ha as [_ Ha].
        now apply orb_false_iff in Ha as [_ Ha]. }
      exists (g ++ [61]), after. repeat split.
      * rewrite E. now rewrite <- app_assoc.
      * intros ->. now apply Hr.
      * rewrite contains_app, contains_one, Z.eqb_refl. apply orb_true_r.
      * intros v Hsv. rewrite <- (app_assoc g [61] v). cbn [app].
        destruct v as [|c v].
        { rewrite red_empty_value, red_nil by auto. now rewrite app_nil_r. }
        assert (first_occurrence sep fields (g ++ 61 :: c :: v)
                = Some (g, [])) as O'.
        { rewrite first_occurrence_key_in by assumption.
          rewrite (run_no_sep _ Hsv). now rewrite skipn_all_length. }
        rewrite (red_hit _ _ _ O'), red_nil, app_nil_r.
        now rewrite <- app_assoc.
    + rewrite (red_miss _ _ O).
      rewrite contains_cons in Ha. apply orb_false_iff in Ha as [Hx Ha].
      destruct (IH Ha) as [E | (w & V & -> & HV & Hw & H)].
      * left. now rewrite E.
      * right. exists (x :: w), V. repeat split; try assumption.
        -- rewrite contains_cons, Hw. apply orb_true_r.
        -- intros v Hsv. cbn [app].
           assert (contains 61 (x :: w) = true) as Hxw
               by (rewrite contains_cons, Hw; apply orb_true_r).
           assert (first_occurrence sep fields (x :: w ++ v) = None) as O'.
           { destruct v as [|c v].
             - rewrite app_nil_r.
               apply (first_occurrence_segment_nil (x :: w) V);
                 try assumption.
               cbn [app]. now rewrite contains_cons, Hx, Ha.
             - rewrite <- O.
               change (x :: w ++ c :: v) with ((x :: w) ++ c :: v).
               change (x :: w ++ V) with ((x :: w) ++ V).
               rewrite contains_app in Ha.
               apply orb_false_iff in Ha as [Haw HaV].
               apply first_occurrence_segment; try assumption.
               + now rewrite contains_cons, Hx, Haw.
               + discriminate. }
           rewrite (red_miss _ _ O'). now rewrite (H v Hsv).
Qed.

(** Redacting a second time changes nothing. *)
Lemma red_idempotent (n : nat) :
  none_has 61 fields = true -> none_has sep fields = true -> sep <> 61 ->
  contains sep redaction = false ->
  forall m, (length m <= n)%nat -> red (red m) = red m.
Proof.
  intros Hn Hs Hsep Hsr.
  assert (forall a, contains sep a = false -> red (red a) = red a) as Hseg.
  { intros a Ha.
    destruct (red_segment_shape a Hn Hsep Ha)
      as [E | (w & V & -> & HV & Hw & H)].
    - now rewrite !E.
    - rewrite contains_app in Ha. apply orb_false_iff in Ha as [_ HaV].
      rewrite (H V HaV). destruct V as [|c V]; [congruence|].
      rewrite (H redaction Hsr). now destruct redaction. }
  induction n as [|n IH]; intros m Hlen.
  - destruct m; [|cbn [length] in Hlen; lia]. now rewrite !red_nil.
  - destruct (contains sep m) eqn:Hm; [|now apply Hseg].
    destruct (contains_split sep m Hm) as (a & b & -> & Ha).
    rewrite length_app in Hlen. cbn [length] in Hlen.
    rewrite (red_app_sep (length a)) by (assumption || lia).
    rewrite (red_app_sep (length (red a))) by (assumption || lia).
    rewrite (Hseg a Ha), (IH b) by lia. reflexivity.
Qed.

(** A message in which no occurrence starts anywhere is left as it is. *)
Lemma red_unchanged (m : pystr) :
  (forall a b, m = a ++ b -> first_occurrence sep fields b = None) ->
  red m = m.
Proof.
  induction m as [|x m IH]; intros H; [apply red_nil|].
  rewrite red_miss by (apply (H []); reflexivity).
  f_equal. apply IH. intros a b ->. apply (H (x :: a)). reflexivity.
Qed.

(** The value that follows a key ending in a listed field name is
    redacted, whatever comes before the name in the key. *)
Lemma red_key_suffix (f v rest : pystr) :
  none_has 61 fields = true -> In f fields ->
  v <> [] -> contains sep v = false ->
  rest = [] \/ (exists r, rest = sep :: r) ->
  forall q, contains 61 q = false ->
    red (q ++ f ++ 61 :: v ++ rest)
    = q ++ f ++ 61 :: redaction ++ red rest.
Proof.
  intros Hn Hin Hv Hsv Hrest.
  assert (contains 61 f = false) as Hf by now apply (none_has_in 61).
  assert (forall a, contains 61 a = false -> In a fields ->
                    red (a ++ 61 :: v ++ rest)
                    = a ++ 61 :: redaction ++ red rest) as Hhit.
  { intros a Ha Hia. apply red_hit.
    rewrite first_occurrence_key_in by assumption.
    rewrite (run_app_no_sep _ _ Hsv Hrest).
    destruct v as [|c v]; [congruence|].
    now rewrite skipn_length_app. }
  induction q as [|x q IH]; intros Hq.
  - cbn [app]. now apply Hhit.
  - rewrite contains_cons in Hq. apply orb_false_iff in Hq as [Hx Hq].
    destruct (in_dec (list_eq_dec Z.eq_dec) ((x :: q) ++ f) fields)
      as [Hi|Hi].
    + rewrite app_assoc, Hhit; [now rewrite <- app_assoc | | assumption].
      now rewrite contains_app, contains_cons, Hx, Hq, Hf.
    + assert (first_occurrence sep fields ((x :: q) ++ f ++ 61 :: v ++ rest)
              = None) as O.
      { rewrite app_assoc. apply first_occurrence_key_out; try assumption.
        now rewrite contains_app, contains_cons, Hx, Hq, Hf. }
      cbn [app] in *. rewrite (red_miss _ _ O). now rewrite IH.
Qed.

Lemma occurs_app (w a b : pystr) : occurs w (a ++ w ++ b) = true.
Proof.
  induction a as [|x a IH].
  - cbn [app]. destruct (w ++ b) eqn:E; cbn [occurs]; rewrite <- E;
      now rewrite startswith_app.
  - cbn [app occurs]. rewrite IH. apply orb_true_r.
Qed.

Lemma first_occurrence_unmentioned (m : pystr) :
  mentioned fields m = false ->
  forall a b, m = a ++ b -> first_occurrence sep fields b = None.
Proof.
  intros Hm a b ->.
  destruct (first_occurrence sep fields b) as [[g rest]|] eqn:O;
    [|reflexivity].
  destruct (first_occurrence_inv _ _ _ O) as [Hin Ho].
  destruct (occurrence_inv _ _ _ Ho) as (after & -> & _).
  assert (mentioned fields (a ++ g ++ 61 :: after) = true) as E.
  { apply existsb_exists. exists g. split; [assumption|].
    change (g ++ 61 :: after) with (g ++ py:"=" ++ after).
    rewrite (app_assoc g). apply occurs_app. }
  congruence.
Qed.

(** What the function returns, for names and a separator that make a
    pattern of the plain kind. *)
Lemma filter_datum_known (message : pystr) :
  fields <> [] -> all_plain fields = true -> sep <> ch "\" ->
  filter_datum fields redaction message [sep] = Known (Ret (red message)).
Proof.
  intros Hne Hp Hsep. unfold filter_datum, sub.
  rewrite parse_datum by assumption.
  unfold redact. do 2 f_equal.
  apply (sub_loop_redact fields sep redaction Hne (length message)); lia.
Qed.

End Redact.

End RedactFacts.

(* ================================================================== *)
(** * [filter_datum]: what is kept and what is hidden *)
(* ================================================================== *)

Module LoggerProperties.
Import Re FilteredLogger DatumPattern ReFacts RedactFacts.

(** X8. For a list of at least one field name, the names made of
    characters that stand for themselves in a pattern, and a
    one-character separator other than the backslash: a message in
    which no listed field name followed by '=' occurs comes back
    unchanged. *)
Theorem filter_datum_keeps_unmentioned :
  forall (fields : list pystr) (redaction message : pystr) (sep : Z),
    fields <> [] -> all_plain fields = true -> sep <> ch "\" ->
    mentioned fields message = false ->
    filter_datum fields redaction message [sep] = Known (Ret message).
Proof.
  intros fields redaction message sep Hne Hp Hsep Hm.
  rewrite filter_datum_known by assumption. do 2 f_equal.
  apply red_unchanged. now apply first_occurrence_unmentioned.
Qed.

Lemma filter_datum_keeps_unmentioned_witness :
  filter_datum [py:"password"; py:"ssn"] py:"xxx"
    py:"name=bob;pass word=hunter2;ssn;" py:";"
  = Known (Ret py:"name=bob;pass word=hunter2;ssn;").
Proof.
  apply (filter_datum_keeps_unmentioned [py:"password"; py:"ssn"] py:"xxx"
           py:"name=bob;pass word=hunter2;ssn;" 59).
  - discriminate.
  - reflexivity.
  - unfold ch. simpl. lia.
  - reflexivity.
Defined.

(** X9. Records are redacted one by one.  For a list of at least one
    field name, the names made of characters that stand for themselves
    in a pattern and none of them containing the separator, and a
    one-character separator that is neither the backslash nor '=': the
    result for two texts joined by the separator is the two results
    joined by the separator. *)
Theorem filter_datum_by_record :
  forall (fields : list pystr) (redaction a b : pystr) (sep : Z),
    fields <> [] -> all_plain fields = true -> sep <> ch "\" ->
    none_has sep fields = true -> sep <> ch "=" ->
    exists ra rb,
      filter_datum fields redaction a [sep] = Known (Ret ra)
      /\ filter_datum fields redaction b [sep] = Known (Ret rb)
      /\ filter_datum fields redaction (a ++ [sep] ++ b) [sep]
         = Known (Ret (ra ++ [sep] ++ rb)).
Proof.
  intros fields redaction a b sep Hne Hp Hsep Hs He.
  exists (redact fields redaction a sep), (redact fields redaction b sep).
  rewrite !filter_datum_known by assumption.
  repeat split. do 2 f_equal.
  now apply (red_app_sep fields redaction sep (length a)).
Qed.

Lemma filter_datum_by_record_witness :
  exists ra rb,
    filter_datum [py:"password"] py:"xxx" py:"name=bob" py:";"
    = Known (Ret ra)
    /\ filter_datum [py:"password"] py:"xxx" py:"password=hunter2;" py:";"
       = Known (Ret rb)
    /\ filter_datum [py:"password"] py:"xxx"
         (py:"name=bob" ++ py:";" ++ py:"password=hunter2;") py:";"
       = Known (Ret (ra ++ py:";" ++ rb)).
Proof.
  apply (filter_datum_by_record [py:"password"] py:"xxx"
           py:"name=bob" py:"password=hunter2;" 59).
  - discriminate.
  - reflexivity.
  - unfold ch. simpl. lia.
  - reflexivity.
  - unfold ch. simpl. lia.
Defined.

(** X10. The result does not depend on the value of a listed field.
    For field names made of characters that stand for themselves in a
    pattern, none of them containing '=' or the separator, and a
    one-character separator that is neither the backslash nor '=': two
    messages that differ only in the value that follows a listed name
    and '=', both values non-empty and without a separator, and
    followed by the end of the message or by a separator, give the same
    result, whatever text comes before the name. *)
Theorem filter_datum_hides_value :
  forall (fields : list pystr) (redaction : pystr) (sep : Z)
         (before field value value' rest : pystr),
    all_plain fields = true -> sep <> ch "\" ->
    none_has (ch "=") fields = true -> none_has sep fields = true ->
    sep <> ch "=" ->
    In field fields ->
    value <> [] -> contains sep value = false ->
    value' <> [] -> contains sep value' = false ->
    rest = [] \/ (exists r, rest = sep :: r) ->
    exists out,
      filter_datum fields redaction
        (before ++ field ++ py:"=" ++ value ++ rest) [sep]
      = Known (Ret out)
      /\ filter_datum fields redaction
           (before ++ field ++ py:"=" ++ value' ++ rest) [sep]
         = Known (Ret out).
Proof.
  intros fields redaction sep before field value value' rest
         Hp Hsep Hn Hs He Hin Hv Hsv Hv' Hsv' Hrest.
  assert (fields <> []) as Hne by (intros ->; destruct Hin).
  eexists. rewrite !filter_datum_known by assumption.
  split; [reflexivity|]. do 2 f_equal.
  exact (red_value fields redaction sep field value' value rest before
           Hn Hs Hin He Hv' Hsv' Hv Hsv Hrest).
Qed.

Lemma filter_datum_hides_value_witness :
  exists out,
    filter_datum [py:"password"; py:"ssn"] py:"xxx"
      (py:"name=bob;old_" ++ py:"password" ++ py:"=" ++ py:"hunter2"
         ++ py:";ssn=12;")
      py:";"
    = Known (Ret out)
    /\ filter_datum [py:"password"; py:"ssn"] py:"xxx"
         (py:"name=bob;old_" ++ py:"password" ++ py:"=" ++ py:"swordfish"
            ++ py:";ssn=12;")
         py:";"
       = Known (Ret out).
Proof.
  apply (filter_datum_hides_value [py:"password"; py:"ssn"] py:"xxx" 59
           py:"name=bob;old_" py:"password" py:"hunter2" py:"swordfish"
           py:";ssn=12;").
  - reflexivity.
  - unfold ch. simpl. lia.
  - reflexivity.
  - reflexivity.
  - unfold ch. simpl. lia.
  - simpl. tauto.
  - discriminate.
  - reflexivity.
  - discriminate.
  - reflexivity.
  - right. eexists. reflexivity.
Defined.

(** X11. Filtering a second time changes nothing.  For a list of at
    least one field name, the names made of characters that stand for
    themselves in a pattern, none of them containing '=' or the
    separator, a one-character separator that is neither the backslash
    nor '=', and a redaction string without the separator in it:
    [filter_datum] applied to its own result returns it unchanged. *)
Theorem filter_datum_idempotent :
  forall (fields : list pystr) (redaction message : pystr) (sep : Z),
    fields <> [] -> all_plain fields = true -> sep <> ch "\" ->
    none_has (ch "=") fields = true -> none_has sep fields = true ->
    sep <> ch "=" ->
    contains sep redaction = false ->
    exists out,
      filter_datum fields redaction message [sep] = Known (Ret out)
      /\ filter_datum fields redaction out [sep] = Known (Ret out).
Proof.
  intros fields redaction message sep Hne Hp Hsep Hn Hs He Hr.
  eexists. rewrite !filter_datum_known by assumption.
  split; [reflexivity|]. do 2 f_equal.
  now apply (red_idempotent fields redaction sep (length message)).
Qed.

Lemma filter_datum_idempotent_witness :
  exists out,
    filter_datum [py:"password"; py:"ssn"] py:"ssn=0"
      py:"name=bob;password=hunter2;ssn=12;" py:";"
    = Known (Ret out)
    /\ filter_datum [py:"password"; py:"ssn"] py:"ssn=0" out py:";"
       = Known (Ret out).
Proof.
  apply (filter_datum_idempotent [py:"password"; py:"ssn"] py:"ssn=0"
           py:"name=bob;password=hunter2;ssn=12;" 59).
  - discriminate.
  - reflexivity.
  - unfold ch. simpl. lia.
  - reflexivity.
  - reflexivity.
  - unfold ch. simpl. lia.
  - reflexivity.
Defined.

(** X12. Field names are not anchored at the start of a key.  For
    field names made of characters that stand for themselves in a
    pattern, none of them containing '=', and a one-character separator
    other than the backslash: when a text without '=' is followed by a
    listed name, '=', a non-empty value without a separator, and then
    the end of the message or a separator, the result is that text, the
    name, '=', the redaction string, and the result for what follows
    the value. *)
Theorem filter_datum_key_suffix :
  forall (fields : list pystr) (redaction : pystr) (sep : Z)
         (before field value rest : pystr),
    all_plain fields = true -> sep <> ch "\" ->
    none_has (ch "=") fields = true ->
    In field fields ->
    contains (ch "=") before = false ->
    value <> [] -> contains sep value = false ->
    rest = [] \/ (exists r, rest = sep :: r) ->
    exists out,
      filter_datum fields redaction rest [sep] = Known (Ret out)
      /\ filter_datum fields redaction
           (before ++ field ++ py:"=" ++ value ++ rest) [sep]
         = Known (Ret (before ++ field ++ py:"=" ++ redaction ++ out)).
Proof.
  intros fields redaction sep before field value rest
         Hp Hsep Hn Hin Hb Hv Hsv Hrest.
  assert (fields <> []) as Hne by (intros ->; destruct Hin).
  eexists. rewrite !filter_datum_known by assumption.
  split; [reflexivity|]. do 2 f_equal.
  exact (red_key_suffix fields redaction sep field value rest
           Hn Hin Hv Hsv Hrest before Hb).
Qed.

Lemma filter_datum_key_suffix_witness :
  exists out,
    filter_datum [py:"password"] py:"xxx" py:";name=bob" py:";"
    = Known (Ret out)
    /\ filter_datum [py:"password"] py:"xxx"
         (py:"old_" ++ py:"password" ++ py:"=" ++ py:"hunter2"
            ++ py:";name=bob")
         py:";"
       = Known (Ret (py:"old_" ++ py:"password" ++ py:"=" ++ py:"xxx"
                       ++ out)).
Proof.
  apply (filter_datum_key_suffix [py:"password"] py:"xxx" 59
           py:"old_" py:"password" py:"hunter2" py:";name=bob").
  - reflexivity.
  - unfold ch. simpl. lia.
  - reflexivity.
  - simpl. tauto.
  - reflexivity.
  - discriminate.
  - reflexivity.
  - right. eexists. reflexivity.
Defined.

(** X13. A key with an empty value is left as it is, listed or not.
    For a list of at least one field name, the names made of characters
    that stand for themselves in a pattern, none of them containing
    '=', and a one-character separator other than the backslash: when a
    key without '=' is followed by '=' and then directly by the end of
    the message or a separator, the result is the key, '=', and the
    result for what follows. *)
Theorem filter_datum_keeps_empty_value :
  forall (fields : list pystr) (redaction : pystr) (sep : Z)
         (key rest : pystr),
    fields <> [] -> all_plain fields = true -> sep <> ch "\" ->
    none_has (ch "=") fields = true ->
    contains (ch "=") key = false ->
    rest = [] \/ (exists r, rest = sep :: r) ->
    exists out,
      filter_datum fields redaction rest [sep] = Known (Ret out)
      /\ filter_datum fields redaction (key ++ py:"=" ++ rest) [sep]
         = Known (Ret (key ++ py:"=" ++ out)).
Proof.
  intros fields redaction sep key rest Hne Hp Hsep Hn Hk Hrest.
  eexists. rewrite !filter_datum_known by assumption.
  split; [reflexivity|]. do 2 f_equal.
  exact (red_empty_value fields redaction sep rest Hn Hrest key Hk).
Qed.

Lemma filter_datum_keeps_empty_value_witness :
  exists out,
    filter_datum [py:"password"] py:"xxx" py:";password=hunter2" py:";"
    = Known (Ret out)
    /\ filter_datum [py:"password"] py:"xxx"
         (py:"password" ++ py:"=" ++ py:";password=hunter2") py:";"
       = Known (Ret (py:"password" ++ py:"=" ++ out)).
Proof.
  apply (filter_datum_keeps_empty_value [py:"password"] py:"xxx" 59
           py:"password" py:";password=hunter2").
  - discriminate.
  - reflexivity.
  - unfold ch. simpl. lia.
  - reflexivity.
  - reflexivity.
  - right. eexists. reflexivity.
Defined.

End LoggerProperties.

(* ================================================================== *)
(** * The examples of spec section 8, run on the embedding *)
(* ================================================================== *)

Module SpecExamples.
Import BasicAuth Re FilteredLogger.

Example split_no_colon_here :
  extract_user_credentials (PStr py:"nocolonhere") = Ret (PNone, PNone).
Proof. reflexivity. Qed.

Example decode_not_valid_base64 :
  decode_base64_authorization_header (PStr py:"not-valid-base64!!")
  = Ret PNone.
Proof. reflexivity. Qed.

Example decode_invalid_utf8 :
  b64decode py:"/w==" = Ret [255]
  /\ decode_base64_authorization_header (PStr py:"/w==") = Ret PNone.
Proof. split; reflexivity. Qed.

Example bob_right_password :
  outcome (current_user Fixture.getHeader Fixture.search
             Fixture.is_valid_password
             (Some (Fixture.basic py:"bob@x.com:secret")))
  = Ret (Some Fixture.bob).
Proof. reflexivity. Qed.

Example bob_wrong_password :
  outcome (current_user Fixture.getHeader Fixture.search
             Fixture.is_valid_password
             (Some (Fixture.basic py:"bob@x.com:wrong")))
  = Ret None.
Proof. reflexivity. Qed.

Example unknown_email :
  current_user Fixture.getHeader Fixture.search Fixture.is_valid_password
    (Some (Fixture.basic py:"al@x.com:secret"))
  = ([AuthorizationHeader; ExtractBase64; DecodeBase64; ExtractCredentials;
      UserFromCredentials; Search py:"al@x.com"], Ret None).
Proof. reflexivity. Qed.

Example store_down :
  current_user Fixture.getHeader Fixture.search_down
    Fixture.is_valid_password
    (Some (Fixture.basic py:"bob@x.com:secret"))
  = ([AuthorizationHeader; ExtractBase64; DecodeBase64; ExtractCredentials;
      UserFromCredentials; Search py:"bob@x.com"], Ret None).
Proof. reflexivity. Qed.

Example no_authorization_header :
  current_user Fixture.getHeader Fixture.search Fixture.is_valid_password
    (Some [(py:"Host", py:"x.com")])
  = ([AuthorizationHeader], Ret None).
Proof. reflexivity. Qed.

Example filter_datum_log_line :
  filter_datum [py:"password"; py:"date_of_birth"] py:"xxx"
    py:"name=egg;password=eggcellent;date_of_birth=12/12/1986;" py:";"
  = Known (Ret py:"name=egg;password=xxx;date_of_birth=xxx;").
Proof. reflexivity. Qed.

End SpecExamples.
